(** * kokomemo: place bookmarks, search merge and map surface

    A shallow embedding of the TypeScript sources of the application:
    - [lib/storage]   the localStorage-backed stores (places, tabs,
                      search history, settings);
    - [lib/maps]      navigation URL, Haversine distance, nearby search;
    - [pages/SearchPage], [components/SearchBar]
                      suggestion merge and the debounced search;
    - [components/InteractiveMap]
                      live-location smoothing and device heading.

    Conventions.  A JavaScript string is its sequence of UTF-16 code units.
    A JavaScript [number] is a binary64 floating-point number where the
    code computes distances ([lib/maps]: rounding and NaN decide what it
    returns there); elsewhere it is idealised as an exact number: a real
    where the code only stores the value, a rational where it only adds,
    multiplies and compares ([InteractiveMap]).  Values the code obtains from
    its environment ([uuidv4()], [new Date().toISOString()], the HTTP
    response, the clock) are arguments of the functions that use them. *)

From Stdlib Require Import Floats.
From Stdlib Require Import ZArith QArith Qabs Qround Lqa Reals Lia Ascii String.
From stdpp Require Import base list strings gmap sorting.

Set Default Proof Using "Type".

(* ===================================================================== *)
(** ** JavaScript strings *)
(* ===================================================================== *)

Module JS.

(** A string value: its UTF-16 code units. *)
Definition str : Type := list N.

(** An ASCII literal of the source. *)
Definition lit (s : string) : str :=
  (λ a, N_of_ascii a) <$> list_ascii_of_string s.

(** The [WhiteSpace] and [LineTerminator] code points of ECMAScript, which
    [String.prototype.trim] strips. *)
Definition is_white_space (c : N) : bool :=
  bool_decide (c ∈ [0x0009; 0x000A; 0x000B; 0x000C; 0x000D; 0x0020; 0x00A0;
                    0x1680; 0x2000; 0x2001; 0x2002; 0x2003; 0x2004; 0x2005;
                    0x2006; 0x2007; 0x2008; 0x2009; 0x200A; 0x2028; 0x2029;
                    0x202F; 0x205F; 0x3000; 0xFEFF]%N).

Fixpoint trim_start (s : str) : str :=
  match s with
  | c :: s' => if is_white_space c then trim_start s' else s
  | [] => []
  end.

Definition trim_end (s : str) : str := reverse (trim_start (reverse s)).

(** [s.trim()] *)
Definition trim (s : str) : str := trim_end (trim_start s).

(** Truthiness of a string: only the empty string is falsy. *)
Definition truthy (s : str) : bool :=
  match s with [] => false | _ :: _ => true end.

(** What evaluating an expression can do: yield a value or throw. *)
Inductive outcome (A : Type) : Type :=
| Returned (a : A)
| Thrown (error_name : string).
Arguments Returned {A} a.
Arguments Thrown {A} error_name.

(** [try { body } catch { handler }] *)
Definition try_catch {A} (body : outcome A) (handler : A) : A :=
  match body with
  | Returned a => a
  | Thrown _ => handler
  end.

(** [Array.prototype.sort(compareFn)]: the sort is stable, and [gt a b]
    stands for [compareFn(a, b) > 0] (a compare function that returns NaN
    counts as returning 0).  Each element is inserted in front of the
    sorted rest and moves right past the elements it is greater than.  For
    a compare function that is no consistent order ECMAScript leaves the
    result to the implementation, and this is one such result. *)
Section Sort.
Context {A : Type} (gt : A → A → bool).

Fixpoint insert (x : A) (l : list A) : list A :=
  match l with
  | [] => [x]
  | y :: l' => if gt x y then y :: insert x l' else x :: y :: l'
  end.

Definition sort (l : list A) : list A := foldr insert [] l.
End Sort.

End JS.

(* ===================================================================== *)
(** ** types/index.ts *)
(* ===================================================================== *)

(** A JavaScript [number] that the code stores or passes on. *)
Definition number : Type := R.

(** Record fields carry the name of their interface as a prefix
    ([place_id] is [Place.id], [tab_order] is [Tab.order], ...). *)
Record Place : Type := mkPlace {
  place_id : JS.str;
  place_name : JS.str;
  place_memo : JS.str;
  place_address : JS.str;
  place_latitude : number;
  place_longitude : number;
  place_tabId : JS.str;
  place_createdAt : JS.str;
  place_updatedAt : JS.str;
}.

(** [Omit<Place, 'id' | 'createdAt' | 'updatedAt'>], the argument of
    [savePlace]. *)
Record PlaceInput : Type := mkPlaceInput {
  input_name : JS.str;
  input_memo : JS.str;
  input_address : JS.str;
  input_latitude : number;
  input_longitude : number;
  input_tabId : JS.str;
}.

Record Tab : Type := mkTab {
  tab_id : JS.str;
  tab_name : JS.str;
  tab_isCustom : bool;
  tab_order : Z;
}.

Record SearchHistory : Type := mkSearchHistory {
  history_query : JS.str;
  history_placeId : option JS.str;
  history_timestamp : JS.str;
}.

Inductive TravelMode : Type := driving | transit | walking.

Record AppSettings : Type := mkAppSettings { travelMode : TravelMode }.

(** The tab names are Japanese; each is given by its code units. *)
Definition DEFAULT_TABS_literal : list Tab :=
  [ mkTab (JS.lit "all") [0x3059; 0x3079; 0x3066]%N false 0;
    mkTab (JS.lit "frequent") [0x3088; 0x304F; 0x884C; 0x304F]%N false 1;
    mkTab (JS.lit "planned") [0x4ECA; 0x5EA6; 0x884C; 0x304F]%N false 2;
    mkTab (JS.lit "revisit") [0x307E; 0x305F; 0x6765; 0x308B]%N false 3;
    mkTab (JS.lit "work") [0x4ED5; 0x4E8B]%N false 4;
    mkTab (JS.lit "rest") [0x4F11; 0x61A9; 0x5834; 0x6240]%N false 5;
    mkTab (JS.lit "convenience") [0x30B3; 0x30F3; 0x30D3; 0x30CB]%N false 6;
    mkTab (JS.lit "toilet") [0x30C8; 0x30A4; 0x30EC]%N false 7;
    mkTab (JS.lit "other") [0x305D; 0x306E; 0x4ED6]%N false 8 ].

Definition DEFAULT_SETTINGS : AppSettings := mkAppSettings driving.

(* ===================================================================== *)
(** ** lib/storage.ts *)
(* ===================================================================== *)

(** The text stored under a key.  The application only ever writes
    [JSON.stringify v] for a value [v] of the key's type, and
    [JSON.parse (JSON.stringify v)] gives [v] back for the plain records
    stored here: that text is [Encoded v].  Any other text is either empty
    or text that [JSON.parse] rejects.  Valid JSON of another shape is
    outside the model, as it is outside the TypeScript types. *)
Inductive stored (T : Type) : Type :=
| EmptyText
| NotJson
| Encoded (v : T).
Arguments EmptyText {T}.
Arguments NotJson {T}.
Arguments Encoded {T} v.

(** [localStorage], one slot per [STORAGE_KEYS] entry; [None] is the
    [null] that [getItem] returns for an absent key. *)
Record localStorage : Type := mkLocalStorage {
  kokomemo_places : option (stored (list Place));
  kokomemo_tabs : option (stored (list Tab));
  kokomemo_search_history : option (stored (list SearchHistory));
  kokomemo_settings : option (stored AppSettings);
}.

(** The mutable state the storage functions see: [localStorage], and the
    array object bound to [DEFAULT_TABS].  [getTabs] can return that very
    array and [addCustomTab] pushes onto what [getTabs] returned, so the
    array is the literal followed by whatever was pushed since. *)
Record world : Type := mkWorld {
  storage : localStorage;
  DEFAULT_TABS_pushed : list Tab;
}.

Definition DEFAULT_TABS (w : world) : list Tab :=
  DEFAULT_TABS_literal ++ DEFAULT_TABS_pushed w.

(** A reference to a [Tab[]]: the shared [DEFAULT_TABS] array, or an array
    nobody else holds. *)
Inductive tabs_array : Type :=
| TheDefaultTabs
| FreshArray (elems : list Tab).

Definition elements (a : tabs_array) (w : world) : list Tab :=
  match a with
  | TheDefaultTabs => DEFAULT_TABS w
  | FreshArray elems => elems
  end.

(** [a.push(x)]: returns the reference to the grown array and the world,
    which changes when [a] is the shared array. *)
Definition push (a : tabs_array) (x : Tab) (w : world) : tabs_array * world :=
  match a with
  | TheDefaultTabs =>
      (TheDefaultTabs, mkWorld (storage w) (DEFAULT_TABS_pushed w ++ [x]))
  | FreshArray elems => (FreshArray (elems ++ [x]), w)
  end.

(** [localStorage.setItem(STORAGE_KEYS.X, JSON.stringify(v))] *)
Definition setItem_PLACES (v : list Place) (w : world) : world :=
  let s := storage w in
  mkWorld (mkLocalStorage (Some (Encoded v)) (kokomemo_tabs s)
             (kokomemo_search_history s) (kokomemo_settings s))
    (DEFAULT_TABS_pushed w).

Definition setItem_TABS (v : list Tab) (w : world) : world :=
  let s := storage w in
  mkWorld (mkLocalStorage (kokomemo_places s) (Some (Encoded v))
             (kokomemo_search_history s) (kokomemo_settings s))
    (DEFAULT_TABS_pushed w).

Definition setItem_SEARCH_HISTORY (v : list SearchHistory) (w : world) : world :=
  let s := storage w in
  mkWorld (mkLocalStorage (kokomemo_places s) (kokomemo_tabs s)
             (Some (Encoded v)) (kokomemo_settings s))
    (DEFAULT_TABS_pushed w).

(** Truthiness of a stored text: only the empty text is falsy. *)
Definition stored_truthy {T} (text : stored T) : bool :=
  match text with
  | EmptyText => false
  | NotJson => true
  | Encoded _ => true
  end.

(** [JSON.parse(text)] throws a [SyntaxError] on text that is not JSON. *)
Definition JSON_parse {T} (text : stored T) : JS.outcome T :=
  match text with
  | Encoded v => JS.Returned v
  | EmptyText => JS.Thrown "SyntaxError"
  | NotJson => JS.Thrown "SyntaxError"
  end.

(** [safeJsonParse(key, defaultValue)], applied to what [getItem(key)]
    returns:
<<
  try {
    const item = localStorage.getItem(key);
    return item ? JSON.parse(item) : defaultValue;
  } catch { return defaultValue; }
>> *)
Definition safeJsonParse {T} (item : option (stored T)) (defaultValue : T) : T :=
  JS.try_catch
    (match item with
     | Some text =>
         if stored_truthy text then JSON_parse text
         else JS.Returned defaultValue
     | None => JS.Returned defaultValue
     end)
    defaultValue.

Definition getPlaces (w : world) : list Place :=
  safeJsonParse (kokomemo_places (storage w)) [].

(** [savePlace(place)]; [uuid] is what [uuidv4()] returns and [now] what
    [new Date().toISOString()] returns during the call. *)
Definition savePlace (uuid now : JS.str) (place : PlaceInput) (w : world)
  : Place * world :=
  let places := getPlaces w in
  let newPlace :=
    {| place_id := uuid;
       place_name := input_name place;
       place_memo := input_memo place;
       place_address := input_address place;
       place_latitude := input_latitude place;
       place_longitude := input_longitude place;
       place_tabId := input_tabId place;
       place_createdAt := now;
       place_updatedAt := now |} in
  let places := places ++ [newPlace] in
  (newPlace, setItem_PLACES places w).

(** [getTabs()] *)
Definition getTabs (w : world) : tabs_array * world :=
  let storedTabs := safeJsonParse (kokomemo_tabs (storage w)) [] in
  if bool_decide (length storedTabs = 0) then
    (TheDefaultTabs, setItem_TABS (DEFAULT_TABS w) w)
  else
    let existingIds : gset JS.str := list_to_set (tab_id <$> storedTabs) in
    let newDefaultTabs := filter (λ t, tab_id t ∉ existingIds) (DEFAULT_TABS w) in
    if bool_decide (0 < length newDefaultTabs) then
      let mergedTabs :=
        JS.sort (λ a b, bool_decide (0 < tab_order a - tab_order b)%Z)
          (storedTabs ++ newDefaultTabs) in
      (FreshArray mergedTabs, setItem_TABS mergedTabs w)
    else (FreshArray storedTabs, w).

Definition getCustomTabs (w : world) : list Tab * world :=
  let '(tabs, w) := getTabs w in
  (filter (λ t, tab_isCustom t) (elements tabs w), w).

(** [Math.max(...xs)] on integers.  On no arguments JavaScript yields
    [-Infinity]; [addCustomTab] never gets there since [getTabs] returns no
    empty array, and the model yields 0 in that case. *)
Definition Math_max (xs : list Z) : Z :=
  match xs with
  | [] => 0
  | x :: xs' => foldl Z.max x xs'
  end.

(** [addCustomTab(name)]; [uuid] is what [uuidv4()] returns.  [None] is the
    [null] result. *)
Definition addCustomTab (uuid name : JS.str) (w : world) : option Tab * world :=
  let '(tabs, w) := getTabs w in
  let customTabs := filter (λ t, tab_isCustom t) (elements tabs w) in
  if bool_decide (5 ≤ length customTabs) then (None, w)
  else
    let maxOrder := Math_max (tab_order <$> elements tabs w) in
    let newTab :=
      {| tab_id := uuid; tab_name := name; tab_isCustom := true;
         tab_order := maxOrder + 1 |} in
    let '(tabs, w) := push tabs newTab w in
    (Some newTab, setItem_TABS (elements tabs w) w).

Definition getSearchHistory (w : world) : list SearchHistory :=
  safeJsonParse (kokomemo_search_history (storage w)) [].

(** [addSearchHistory(query, placeId)]; [now] is the ISO timestamp. *)
Definition addSearchHistory (now query : JS.str) (placeId : option JS.str)
  (w : world) : world :=
  let history := getSearchHistory w in
  let newEntry :=
    {| history_query := query; history_placeId := placeId;
       history_timestamp := now |} in
  let filtered := filter (λ h, history_query h ≠ query) history in
  let filtered := newEntry :: filtered in
  let limited := take 20 filtered in
  setItem_SEARCH_HISTORY limited w.

Definition clearSearchHistory (w : world) : world :=
  setItem_SEARCH_HISTORY [] w.

Definition getSettings (w : world) : AppSettings :=
  safeJsonParse (kokomemo_settings (storage w)) DEFAULT_SETTINGS.

(** The stores whose search history the application built itself: nothing
    readable was stored at first, and since then the history key was only
    written by [addSearchHistory] and [clearSearchHistory] (the only
    functions that write it). *)
Inductive history_built : world → Prop :=
| history_built_start (w : world) :
    getSearchHistory w = [] → history_built w
| history_built_add (now query : JS.str) (placeId : option JS.str) (w : world) :
    history_built w → history_built (addSearchHistory now query placeId w)
| history_built_clear (w : world) :
    history_built w → history_built (clearSearchHistory w)
| history_built_other (w w' : world) :
    history_built w →
    kokomemo_search_history (storage w') = kokomemo_search_history (storage w) →
    history_built w'.

(* ===================================================================== *)
(** ** lib/maps.ts *)
(* ===================================================================== *)

(** [{ lat: number; lng: number }] *)
Record LatLng : Type := mkLatLng { lat : number; lng : number }.

(** The text of a travel mode, as spliced into a template literal. *)
Definition travelMode_text (m : TravelMode) : JS.str :=
  match m with
  | driving => JS.lit "driving"
  | transit => JS.lit "transit"
  | walking => JS.lit "walking"
  end.

(** One call of [window.open(url, target)]. *)
Record window_open : Type := mkOpen { open_url : JS.str; open_target : JS.str }.

Section OpenNavigation.
(** [String(n)] for a number [n], as a template literal computes it. *)
Context (Number_toString : number → JS.str).

(** [openNavigation(latitude, longitude, travelMode = 'driving')]; [None]
    is an omitted (or [undefined]) third argument; the result lists the
    [window.open] calls made so far. *)
Definition openNavigation (latitude longitude : number)
    (travelMode : option TravelMode) (opened : list window_open)
  : list window_open :=
  let travelMode := default driving travelMode in
  let url :=
    JS.lit "https://www.google.com/maps/dir/?api=1&destination="
      ++ Number_toString latitude ++ JS.lit ","
      ++ Number_toString longitude ++ JS.lit "&travelmode="
      ++ travelMode_text travelMode in
  opened ++ [mkOpen url (JS.lit "_blank")].
End OpenNavigation.

(** *** Distances

    [calculateDistance] works on binary64 numbers, [float] here, with the
    arithmetic of IEEE 754.  The functions of [Math] and the operator [**]
    are "implementation-approximated" in ECMAScript: their values are the
    platform's, and the code is modelled for every platform. *)
Class MathObject : Type := {
  Math_sin : float → float;
  Math_cos : float → float;
  Math_sqrt : float → float;
  Math_atan2 : float → float → float;
  (** [x ** y] *)
  exponentiate : float → float → float;
}.

(** [Math.PI], the binary64 number nearest to the circle constant. *)
Definition Math_PI : float := 0x1.921fb54442d18p+1%float.

(** [calculateDistance(lat1, lng1, lat2, lng2)].  The constant [R] of the
    source is [R_earth] here. *)
Definition calculateDistance `{!MathObject} (lat1 lng1 lat2 lng2 : float)
  : float :=
  let R_earth := 6371000%float in
  let dLat := ((lat2 - lat1) * Math_PI / 180)%float in
  let dLng := ((lng2 - lng1) * Math_PI / 180)%float in
  let a :=
    (exponentiate (Math_sin (dLat / 2)) 2 +
     Math_cos (lat1 * Math_PI / 180) * Math_cos (lat2 * Math_PI / 180) *
       exponentiate (Math_sin (dLng / 2)) 2)%float in
  (R_earth * 2 * Math_atan2 (Math_sqrt a) (Math_sqrt (1 - a)))%float.

(** [{ lat: number; lng: number }], the position that the nearby search
    starts from. *)
Record MapPosition : Type := mkMapPosition {
  position_lat : float;
  position_lng : float;
}.

Record NearbyPlaceResult : Type := mkNearbyPlaceResult {
  nearby_placeId : JS.str;
  nearby_name : JS.str;
  nearby_address : JS.str;
  nearby_latitude : float;
  nearby_longitude : float;
  nearby_distanceMeters : float;
}.

Record AutocompleteResult : Type := mkAutocompleteResult {
  autocomplete_placeId : JS.str;
  autocomplete_mainText : JS.str;
  autocomplete_secondaryText : JS.str;
  autocomplete_distanceMeters : option float;
}.

(** An element of [data.places] in the body of the Text Search response;
    [None] is a missing (or [null]) property.  [searched_displayName] is
    [place.displayName?.text]. *)
Record SearchedLocation : Type := mkSearchedLocation {
  searched_latitude : option float;
  searched_longitude : option float;
}.

Record SearchedPlace : Type := mkSearchedPlace {
  searched_id : option JS.str;
  searched_displayName : option JS.str;
  searched_formattedAddress : option JS.str;
  searched_location : option SearchedLocation;
}.



(** What the [fetch] of [searchNearbyPlaces] comes to. *)
Inductive fetch_result : Type :=
| fetch_undefined
    (** [typeof fetch === 'undefined'] *)
| fetch_throws
    (** [fetch] or [response.json()] rejects: network error, abort after
        5 s, body that is not JSON *)
| response_not_ok
    (** [!response.ok] *)
| response_json (places : option (list SearchedPlace)).
    (** the body; [places = None] when [data.places] is missing *)

(** [s.replace(/^places\//, '')] *)
Definition strip_places_prefix (s : JS.str) : JS.str :=
  let p := JS.lit "places/" in
  if bool_decide (take (length p) s = p) then drop (length p) s else s.

(** [place.location?.latitude || 0]: a missing coordinate is 0, and so is
    a falsy one (0, -0 or NaN). *)
Definition coordinate_or_0 (location : option SearchedLocation)
    (field : SearchedLocation → option float) : float :=
  match location ≫= field with
  | Some coordinate =>
      if (coordinate =? 0)%float || PrimFloat.is_nan coordinate
      then 0%float
      else coordinate
  | None => 0%float
  end.

(** The object that the [map] callback builds for one place. *)
Definition toNearbyPlaceResult `{!MathObject} (location : MapPosition)
    (place : SearchedPlace) : NearbyPlaceResult :=
  {| nearby_placeId := strip_places_prefix (default [] (searched_id place));
     nearby_name := default [] (searched_displayName place);
     nearby_address := default [] (searched_formattedAddress place);
     nearby_latitude :=
       coordinate_or_0 (searched_location place) searched_latitude;
     nearby_longitude :=
       coordinate_or_0 (searched_location place) searched_longitude;
     nearby_distanceMeters :=
       calculateDistance (position_lat location) (position_lng location)
         (coordinate_or_0 (searched_location place) searched_latitude)
         (coordinate_or_0 (searched_location place) searched_longitude) |}.

(** [searchNearbyPlaces(query, location, apiKey, radius = 5000)].  The
    query, the key and the radius only shape the request; [response] is
    what the request comes to. *)
Definition searchNearbyPlaces `{!MathObject} (query : JS.str)
    (location : MapPosition) (apiKey : JS.str) (radius : option float)
    (response : fetch_result) : list NearbyPlaceResult :=
  match response with
  | fetch_undefined => []
  | fetch_throws => []
  | response_not_ok => []
  | response_json None => []
  | response_json (Some places) =>
      JS.sort
        (λ a b,
           (0 <? nearby_distanceMeters a - nearby_distanceMeters b)%float)
        (toNearbyPlaceResult location <$> places)
  end.

(* ===================================================================== *)
(** ** Timers of the window *)
(* ===================================================================== *)

(** A pending [setTimeout(() => search(value), delay)]: its handle (the
    positive integer [setTimeout] returned), the time in milliseconds at
    which it is due, and the query its callback will search for. *)
Record timeout : Type := mkTimeout {
  timeout_handle : positive;
  timeout_due : N;
  timeout_value : JS.str;
}.

(** The timers of a search component: the pending search timeouts, the
    handle the next [setTimeout] returns, and the time in milliseconds. *)
Record timers : Type := mkTimers {
  pending : list timeout;
  next_handle : positive;
  clock : N;
}.

(** [setTimeout(() => search(value), delay)] returns a fresh handle. *)
Definition setTimeout (value : JS.str) (delay : N) (t : timers)
  : positive * timers :=
  (next_handle t,
   mkTimers (pending t ++ [mkTimeout (next_handle t) (clock t + delay) value])
     (next_handle t + 1) (clock t)).

(** [clearTimeout(handle)] *)
Definition clearTimeout (handle : positive) (t : timers) : timers :=
  mkTimers (filter (λ p, timeout_handle p ≠ handle) (pending t))
    (next_handle t) (clock t).

(* ===================================================================== *)
(** ** pages/SearchPage.tsx *)
(* ===================================================================== *)

Record PlaceResult : Type := mkPlaceResult {
  result_placeId : JS.str;
  result_name : JS.str;
  result_address : JS.str;
  result_postalCode : option JS.str;
  result_latitude : number;
  result_longitude : number;
}.

Record Suggestion : Type := mkSuggestion {
  suggestion_text : JS.str;
  suggestion_description : option JS.str;
  suggestion_placeId : JS.str;
  suggestion_distanceMeters : option float;
}.

(** The state of the page that the search touches: the [useState] cells,
    [debounceRef.current] ([None] is [null]), the searches that were
    started and have not finished, and the timers. *)
Record SearchPage : Type := mkSearchPage {
  page_query : JS.str;
  page_selectedPlace : option PlaceResult;
  page_suggestions : list Suggestion;
  page_isSearching : bool;
  page_debounceRef : option positive;
  page_running : list JS.str;
  page_timers : timers;
}.

(** Steps 3 and 4 of [executeSearch]: the nearby results first, then the
    autocomplete results whose id is not in [nearbyIds]. *)
Definition mergeSuggestions (nearbyResults : list NearbyPlaceResult)
    (autocompleteResults : list AutocompleteResult) : list Suggestion :=
  let nearbyIds : gset JS.str :=
    list_to_set (nearby_placeId <$> nearbyResults) in
  let nearbySuggestions :=
    (λ r, {| suggestion_text := nearby_name r;
             suggestion_description := Some (nearby_address r);
             suggestion_placeId := nearby_placeId r;
             suggestion_distanceMeters := Some (nearby_distanceMeters r) |})
      <$> nearbyResults in
  let autocompleteSuggestions :=
    (λ r, {| suggestion_text := autocomplete_mainText r;
             suggestion_description := Some (autocomplete_secondaryText r);
             suggestion_placeId := autocomplete_placeId r;
             suggestion_distanceMeters := autocomplete_distanceMeters r |})
      <$> filter (λ r, autocomplete_placeId r ∉ nearbyIds)
            autocompleteResults in
  nearbySuggestions ++ autocompleteSuggestions.

(** What one run of [executeSearch] meets while it waits: the position in
    [mapPositionRef.current], the list [searchAutocomplete] resolves to (it
    catches its own errors), [queryRef.current] when that wait ends, what
    the request of [searchNearbyPlaces] comes to, and [queryRef.current]
    when that wait ends. *)
Record search_run : Type := mkSearchRun {
  run_origin : option MapPosition;
  run_autocomplete : list AutocompleteResult;
  run_query_after_autocomplete : JS.str;
  run_nearby_response : fetch_result;
  run_query_after_nearby : JS.str;
}.

Definition page_setSuggestions (v : list Suggestion) (st : SearchPage)
  : SearchPage :=
  mkSearchPage (page_query st) (page_selectedPlace st) v (page_isSearching st)
    (page_debounceRef st) (page_running st) (page_timers st).

Definition page_setIsSearching (v : bool) (st : SearchPage) : SearchPage :=
  mkSearchPage (page_query st) (page_selectedPlace st) (page_suggestions st) v
    (page_debounceRef st) (page_running st) (page_timers st).

Definition page_setQuery (v : JS.str) (st : SearchPage) : SearchPage :=
  mkSearchPage v (page_selectedPlace st) (page_suggestions st)
    (page_isSearching st) (page_debounceRef st) (page_running st)
    (page_timers st).

Definition page_setSelectedPlace (v : option PlaceResult) (st : SearchPage)
  : SearchPage :=
  mkSearchPage (page_query st) v (page_suggestions st) (page_isSearching st)
    (page_debounceRef st) (page_running st) (page_timers st).

Definition page_setTimers (v : timers) (st : SearchPage) : SearchPage :=
  mkSearchPage (page_query st) (page_selectedPlace st) (page_suggestions st)
    (page_isSearching st) (page_debounceRef st) (page_running st) v.

Definition page_setDebounceRef (v : option positive) (st : SearchPage)
  : SearchPage :=
  mkSearchPage (page_query st) (page_selectedPlace st) (page_suggestions st)
    (page_isSearching st) v (page_running st) (page_timers st).

Definition page_setRunning (v : list JS.str) (st : SearchPage) : SearchPage :=
  mkSearchPage (page_query st) (page_selectedPlace st) (page_suggestions st)
    (page_isSearching st) (page_debounceRef st) v (page_timers st).

(** The effect of a whole run of [executeSearch(searchQuery)] on the state.
    Every path but the first leaves through [finally]. *)
Definition executeSearch `{!MathObject}
    (GOOGLE_MAPS_API_KEY searchQuery : JS.str)
    (run : search_run) (st : SearchPage) : SearchPage :=
  if negb (JS.truthy GOOGLE_MAPS_API_KEY) then page_setIsSearching false st
  else
    let origin := run_origin run in
    let autocompleteResults := run_autocomplete run in
    if bool_decide (run_query_after_autocomplete run ≠ searchQuery) then
      page_setIsSearching false st
    else
      let nearbyResults :=
        match origin with
        | Some origin =>
            searchNearbyPlaces searchQuery origin GOOGLE_MAPS_API_KEY None
              (run_nearby_response run)
        | None => []
        end in
      if bool_decide (run_query_after_nearby run ≠ searchQuery) then
        page_setIsSearching false st
      else
        page_setIsSearching false
          (page_setSuggestions
             (mergeSuggestions nearbyResults autocompleteResults) st).

(** [handleInputChange(value)] *)
Definition handleInputChange (value : JS.str) (st : SearchPage) : SearchPage :=
  let st := page_setQuery value st in
  let st := page_setSelectedPlace None st in
  let st :=
    match page_debounceRef st with
    | Some handle => page_setTimers (clearTimeout handle (page_timers st)) st
    | None => st
    end in
  if negb (JS.truthy (JS.trim value)) then
    page_setIsSearching false (page_setSuggestions [] st)
  else
    let st := page_setIsSearching true st in
    let '(handle, t) := setTimeout value 800 (page_timers st) in
    page_setDebounceRef (Some handle) (page_setTimers t st).

(** The start of [executeSearch(searchQuery)], which runs within the call
    that starts the search: without an API key the search is over at once
    ([setIsSearching(false); return]); otherwise it is under way until its
    requests have come back. *)
Definition executeSearch_start (GOOGLE_MAPS_API_KEY searchQuery : JS.str)
    (st : SearchPage) : SearchPage :=
  if negb (JS.truthy GOOGLE_MAPS_API_KEY) then page_setIsSearching false st
  else page_setRunning (page_running st ++ [searchQuery]) st.

(** [handleQuickSearch(searchTerm)]: the search starts at once. *)
Definition handleQuickSearch (GOOGLE_MAPS_API_KEY searchTerm : JS.str)
    (st : SearchPage) : SearchPage :=
  let st := page_setQuery searchTerm st in
  let st := page_setSelectedPlace None st in
  let st := page_setSuggestions [] st in
  let st := page_setIsSearching true st in
  let st :=
    match page_debounceRef st with
    | Some handle => page_setTimers (clearTimeout handle (page_timers st)) st
    | None => st
    end in
  executeSearch_start GOOGLE_MAPS_API_KEY searchTerm st.

(** The page when it is mounted; [handle] is the next timer handle of the
    window and [now] the time. *)
Definition page_mounted (handle : positive) (now : N) : SearchPage :=
  mkSearchPage [] None [] false None [] (mkTimers [] handle now).

(** What can happen to the page. *)
Inductive page_step `{!MathObject} (GOOGLE_MAPS_API_KEY : JS.str)
  : SearchPage → SearchPage → Prop :=
| page_input (value : JS.str) (st : SearchPage) :
    (** the user types, dictates, or a typo fix is applied *)
    page_step GOOGLE_MAPS_API_KEY st (handleInputChange value st)
| page_quick (searchTerm : JS.str) (st : SearchPage) :
    page_step GOOGLE_MAPS_API_KEY st
      (handleQuickSearch GOOGLE_MAPS_API_KEY searchTerm st)
| page_tick (d : N) (st : SearchPage) :
    (** time passes *)
    page_step GOOGLE_MAPS_API_KEY st
      (page_setTimers
         (mkTimers (pending (page_timers st)) (next_handle (page_timers st))
            (clock (page_timers st) + d)) st)
| page_fire (p : timeout) (st : SearchPage) :
    (** a due timeout fires: [executeSearch(value)] starts *)
    p ∈ pending (page_timers st) →
    (timeout_due p ≤ clock (page_timers st))%N →
    page_step GOOGLE_MAPS_API_KEY st
      (executeSearch_start GOOGLE_MAPS_API_KEY (timeout_value p)
         (page_setTimers
            (clearTimeout (timeout_handle p) (page_timers st)) st))
| page_finish (searchQuery : JS.str) (run : search_run) (st : SearchPage) :
    (** a started search runs to its end *)
    searchQuery ∈ page_running st →
    page_step GOOGLE_MAPS_API_KEY st
      (executeSearch GOOGLE_MAPS_API_KEY searchQuery run
         (page_setRunning
            (filter (λ q, q ≠ searchQuery) (page_running st)) st))
| page_other (st st' : SearchPage) :
    (** any other handler, or a timer set elsewhere in the window: the
        pending search timeouts, their handles and [debounceRef] stay *)
    page_debounceRef st' = page_debounceRef st →
    pending (page_timers st') = pending (page_timers st) →
    clock (page_timers st') = clock (page_timers st) →
    (next_handle (page_timers st) ≤ next_handle (page_timers st'))%positive →
    page_step GOOGLE_MAPS_API_KEY st st'.

(** The states the page can be in after it is mounted. *)
Inductive page_reachable `{!MathObject} (GOOGLE_MAPS_API_KEY : JS.str)
  : SearchPage → Prop :=
| page_reachable_mounted (handle : positive) (now : N) :
    page_reachable GOOGLE_MAPS_API_KEY (page_mounted handle now)
| page_reachable_step (st st' : SearchPage) :
    page_reachable GOOGLE_MAPS_API_KEY st →
    page_step GOOGLE_MAPS_API_KEY st st' →
    page_reachable GOOGLE_MAPS_API_KEY st'.

(* ===================================================================== *)
(** ** components/SearchBar.tsx *)
(* ===================================================================== *)

(** ['history' | 'place' | 'nearby'] *)
Inductive SuggestionType : Type := type_history | type_place | type_nearby.

Record BarSuggestion : Type := mkBarSuggestion {
  bar_suggestion_type : SuggestionType;
  bar_suggestion_text : JS.str;
  bar_suggestion_description : option JS.str;
  bar_suggestion_placeId : option JS.str;
  bar_suggestion_distanceMeters : option float;
}.

(** The fields of [google.maps.places.AutocompletePrediction] that the
    component reads; the two texts are those of
    [structured_formatting]. *)
Record AutocompletePrediction : Type := mkAutocompletePrediction {
  prediction_place_id : JS.str;
  prediction_main_text : JS.str;
  prediction_secondary_text : JS.str;
  prediction_distance_meters : option float;
}.

(** Step 3 of the timer callback and the list it hands to
    [setSuggestions]. *)
Definition bar_mergeSuggestions (nearbyResults : list NearbyPlaceResult)
    (predictions : list AutocompletePrediction) : list BarSuggestion :=
  let nearbyIds : gset JS.str :=
    list_to_set (nearby_placeId <$> nearbyResults) in
  let nearbySuggestions :=
    (λ r, {| bar_suggestion_type := type_nearby;
             bar_suggestion_text := nearby_name r;
             bar_suggestion_description := Some (nearby_address r);
             bar_suggestion_placeId := Some (nearby_placeId r);
             bar_suggestion_distanceMeters :=
               Some (nearby_distanceMeters r) |})
      <$> nearbyResults in
  let placeSuggestions :=
    (λ p, {| bar_suggestion_type := type_place;
             bar_suggestion_text := prediction_main_text p;
             bar_suggestion_description := Some (prediction_secondary_text p);
             bar_suggestion_placeId := Some (prediction_place_id p);
             bar_suggestion_distanceMeters := prediction_distance_meters p |})
      <$> filter (λ p, prediction_place_id p ∉ nearbyIds) predictions in
  nearbySuggestions ++ placeSuggestions.

(** The state of the component that the search effect touches: the
    [useState] cells, the readiness of the Places services, the timer that
    the cleanup function of the last run of the effect clears ([None] when
    that run returned no cleanup), and the timers. *)
Record SearchBar : Type := mkSearchBar {
  bar_query : JS.str;
  bar_suggestions : list BarSuggestion;
  bar_isSearching : bool;
  bar_currentLocation : option LatLng;
  bar_isReady : bool;
  bar_cleanup : option positive;
  bar_timers : timers;
}.

(** The body of the search effect, run on the rendered state. *)
Definition searchEffect (st : SearchBar) : SearchBar :=
  if negb (JS.truthy (JS.trim (bar_query st))) then
    mkSearchBar (bar_query st) [] false (bar_currentLocation st)
      (bar_isReady st) None (bar_timers st)
  else if negb (bar_isReady st) then
    mkSearchBar (bar_query st) (bar_suggestions st) (bar_isSearching st)
      (bar_currentLocation st) (bar_isReady st) None (bar_timers st)
  else
    let '(timer, t) := setTimeout (bar_query st) 800 (bar_timers st) in
    mkSearchBar (bar_query st) (bar_suggestions st) true
      (bar_currentLocation st) (bar_isReady st) (Some timer) t.

(** The cleanup function of the previous run: [clearTimeout(timer)]. *)
Definition searchEffect_cleanup (st : SearchBar) : SearchBar :=
  match bar_cleanup st with
  | Some timer =>
      mkSearchBar (bar_query st) (bar_suggestions st) (bar_isSearching st)
        (bar_currentLocation st) (bar_isReady st) None
        (clearTimeout timer (bar_timers st))
  | None => st
  end.

(** A dependency of the effect changed: React runs the cleanup of the
    previous run, then the effect. *)
Definition searchEffect_rerun (st : SearchBar) : SearchBar :=
  searchEffect (searchEffect_cleanup st).

(** [handleInputChange(value)], that is [setQuery(value)], and the render
    that follows.  Setting the state to the value it has renders nothing
    and runs no effect. *)
Definition bar_handleInputChange (value : JS.str) (st : SearchBar)
  : SearchBar :=
  if bool_decide (value = bar_query st) then st
  else
    searchEffect_rerun
      (mkSearchBar value (bar_suggestions st) (bar_isSearching st)
         (bar_currentLocation st) (bar_isReady st) (bar_cleanup st)
         (bar_timers st)).

(** The component after its first render and the first run of the effect:
    the query is empty. *)
Definition bar_mounted (handle : positive) (now : N) : SearchBar :=
  searchEffect (mkSearchBar [] [] false None false None (mkTimers [] handle now)).

(** What can happen to the component. *)
Inductive bar_step : SearchBar → SearchBar → Prop :=
| bar_input (value : JS.str) (st : SearchBar) :
    bar_step st (bar_handleInputChange value st)
| bar_dependency (location : option LatLng) (ready : bool) (st : SearchBar) :
    (** the location arrives, the Places services get ready, or
        [getPlacePredictions] changes *)
    bar_step st
      (searchEffect_rerun
         (mkSearchBar (bar_query st) (bar_suggestions st) (bar_isSearching st)
            location ready (bar_cleanup st) (bar_timers st)))
| bar_tick (d : N) (st : SearchBar) :
    bar_step st
      (mkSearchBar (bar_query st) (bar_suggestions st) (bar_isSearching st)
         (bar_currentLocation st) (bar_isReady st) (bar_cleanup st)
         (mkTimers (pending (bar_timers st)) (next_handle (bar_timers st))
            (clock (bar_timers st) + d)))
| bar_fire (p : timeout) (suggestions : list BarSuggestion) (st : SearchBar) :
    (** a due timeout fires and its callback runs to its end: it sets the
        suggestions (the merged list, or none after an error) and
        [isSearching] to false *)
    p ∈ pending (bar_timers st) →
    (timeout_due p ≤ clock (bar_timers st))%N →
    bar_step st
      (mkSearchBar (bar_query st) suggestions false (bar_currentLocation st)
         (bar_isReady st) (bar_cleanup st)
         (clearTimeout (timeout_handle p) (bar_timers st)))
| bar_other (st st' : SearchBar) :
    (** any other handler, or a timer set elsewhere in the window *)
    bar_query st' = bar_query st →
    bar_currentLocation st' = bar_currentLocation st →
    bar_isReady st' = bar_isReady st →
    bar_cleanup st' = bar_cleanup st →
    pending (bar_timers st') = pending (bar_timers st) →
    clock (bar_timers st') = clock (bar_timers st) →
    (next_handle (bar_timers st) ≤ next_handle (bar_timers st'))%positive →
    bar_step st st'.

Inductive bar_reachable : SearchBar → Prop :=
| bar_reachable_mounted (handle : positive) (now : N) :
    bar_reachable (bar_mounted handle now)
| bar_reachable_step (st st' : SearchBar) :
    bar_reachable st → bar_step st st' → bar_reachable st'.

(* ===================================================================== *)
(** ** components/InteractiveMap.tsx *)
(* ===================================================================== *)

(** The map surface only adds, multiplies and compares coordinates and
    angles, so its numbers are rationals (every finite double is one) and
    the model runs. *)

(** [{ lat: number; lng: number }] *)
Record Location : Type := mkLocation { location_lat : Q; location_lng : Q }.

(** The state of the component that the location smoothing and the heading
    touch: the [useState] cells, the refs, the flag [absoluteSupported] of
    the orientation effect, and the animation frames that were requested
    and have neither run nor been cancelled. *)
Record InteractiveMap : Type := mkInteractiveMap {
  map_currentLocation : option Location;
  map_smoothLocation : option Location;
  map_targetLocationRef : option Location;
  map_animationFrameRef : option positive;
  map_heading : option Q;
  map_hasOrientationSensor : bool;
  map_absoluteSupported : bool;
  map_frames : list positive;
  map_next_frame : positive;
}.

Definition map_setSmoothLocation (v : option Location) (st : InteractiveMap)
  : InteractiveMap :=
  mkInteractiveMap (map_currentLocation st) v (map_targetLocationRef st)
    (map_animationFrameRef st) (map_heading st) (map_hasOrientationSensor st)
    (map_absoluteSupported st) (map_frames st) (map_next_frame st).

(** [animationFrameRef.current = requestAnimationFrame(animate)] *)
Definition map_requestAnimationFrame (st : InteractiveMap) : InteractiveMap :=
  mkInteractiveMap (map_currentLocation st) (map_smoothLocation st)
    (map_targetLocationRef st) (Some (map_next_frame st)) (map_heading st)
    (map_hasOrientationSensor st) (map_absoluteSupported st)
    (map_frames st ++ [map_next_frame st]) (map_next_frame st + 1).

(** [animate()], one step of the smoothing:
<<
  const target = targetLocationRef.current;
  if (!target) return;
  setSmoothLocation((current) => {
    if (!current) return target;
    const factor = 0.15;
    const newLat = current.lat + (target.lat - current.lat) * factor;
    const newLng = current.lng + (target.lng - current.lng) * factor;
    const dist = Math.abs(target.lat - newLat) + Math.abs(target.lng - newLng);
    if (dist < 0.0000001) { return target; }
    animationFrameRef.current = requestAnimationFrame(animate);
    return { lat: newLat, lng: newLng };
  });
>> *)
Definition animate (st : InteractiveMap) : InteractiveMap :=
  match map_targetLocationRef st with
  | None => st
  | Some target =>
      match map_smoothLocation st with
      | None => map_setSmoothLocation (Some target) st
      | Some current =>
          let factor := 0.15%Q in
          let newLat :=
            (location_lat current +
             (location_lat target - location_lat current) * factor)%Q in
          let newLng :=
            (location_lng current +
             (location_lng target - location_lng current) * factor)%Q in
          let dist :=
            (Qabs (location_lat target - newLat) +
             Qabs (location_lng target - newLng))%Q in
          if Qlt_le_dec dist 0.0000001 then
            map_setSmoothLocation (Some target) st
          else
            map_setSmoothLocation (Some (mkLocation newLat newLng))
              (map_requestAnimationFrame st)
      end
  end.

(** The browser runs a requested frame: the callback [animate] runs. *)
Definition map_run_frame (frame : positive) (st : InteractiveMap)
  : InteractiveMap :=
  animate
    (mkInteractiveMap (map_currentLocation st) (map_smoothLocation st)
       (map_targetLocationRef st) (map_animationFrameRef st) (map_heading st)
       (map_hasOrientationSensor st) (map_absoluteSupported st)
       (filter (λ f, f ≠ frame) (map_frames st)) (map_next_frame st)).

(** The integer part of a rational, towards zero. *)
Definition Q_truncate (q : Q) : Z := (Qnum q ÷ Zpos (Qden q))%Z.

(** [x % y] on numbers, for [y] other than 0: what is left of [x] after
    taking away [y] as many whole times as fit, towards zero.  (On [y = 0]
    JavaScript yields NaN; the code divides by 360.) *)
Definition js_remainder (x y : Q) : Q :=
  (x - y * inject_Z (Q_truncate (x / y)))%Q.

(** [handleAbsoluteOrientation(event)], on [event.alpha]; [None] is
    [null]. *)
Definition handleAbsoluteOrientation (alpha : option Q) (st : InteractiveMap)
  : InteractiveMap :=
  match alpha with
  | Some alpha =>
      mkInteractiveMap (map_currentLocation st) (map_smoothLocation st)
        (map_targetLocationRef st) (map_animationFrameRef st)
        (Some (js_remainder (360 - alpha) 360)) true true
        (map_frames st) (map_next_frame st)
  | None =>
      mkInteractiveMap (map_currentLocation st) (map_smoothLocation st)
        (map_targetLocationRef st) (map_animationFrameRef st)
        (map_heading st) (map_hasOrientationSensor st) true
        (map_frames st) (map_next_frame st)
  end.

(** A map that follows a target half a degree north-east of the smoothed
    position, and one that has all but reached its target. *)
Definition map_far : InteractiveMap :=
  mkInteractiveMap (Some (mkLocation 35.5 139.5)) (Some (mkLocation 35 139))
    (Some (mkLocation 35.5 139.5)) (Some 1%positive) None false false [] 2.

Definition map_near : InteractiveMap :=
  mkInteractiveMap (Some (mkLocation 35 139))
    (Some (mkLocation 35.00000001 139)) (Some (mkLocation 35 139))
    (Some 1%positive) None false false [] 2.

(** *** Sample stores *)

(** The state at first launch: nothing stored, [DEFAULT_TABS] as loaded. *)
Definition first_launch : world :=
  mkWorld (mkLocalStorage None None None None) [].

(** A store whose texts were damaged: no places, tabs and history that are
    not JSON, empty settings. *)
Definition damaged_store : world :=
  mkWorld (mkLocalStorage None (Some NotJson) (Some NotJson) (Some EmptyText))
    [].

(** The store after two searches since the first launch. *)
Definition tidy_history : world :=
  addSearchHistory (JS.lit "2025-01-02T00:00:00.000Z") (JS.lit "park") None
    (addSearchHistory (JS.lit "2025-01-01T00:00:00.000Z") (JS.lit "cafe")
       None first_launch).

Definition custom_tab (n : Z) : Tab :=
  mkTab (JS.lit "custom-" ++ [(48 + Z.to_N n)%N]) (JS.lit "my tab") true (8 + n).

Definition five_custom_tabs : list Tab := custom_tab <$> [1; 2; 3; 4; 5]%Z.

(** A store written before the default tab ['other'] existed: the first
    eight default tabs and five custom tabs. *)
Definition upgraded_store : world :=
  setItem_TABS (take 8 DEFAULT_TABS_literal ++ five_custom_tabs) first_launch.

(** A store holding every default tab and five custom tabs. *)
Definition full_store : world :=
  setItem_TABS (DEFAULT_TABS_literal ++ five_custom_tabs) first_launch.

(** *** Sample search results *)

Definition sample_nearby (id name : string) : NearbyPlaceResult :=
  mkNearbyPlaceResult (JS.lit id) (JS.lit name) (JS.lit "Tokyo") 0 0 0.

Definition sample_autocomplete (id name : string) : AutocompleteResult :=
  mkAutocompleteResult (JS.lit id) (JS.lit name) (JS.lit "Tokyo") None.

Definition sample_prediction (id name : string) : AutocompletePrediction :=
  mkAutocompletePrediction (JS.lit id) (JS.lit name) (JS.lit "Tokyo") None.

(** *** Sample search components *)

(** The search bar once the Places services are ready, nothing typed. *)
Definition bar_ready : SearchBar :=
  searchEffect_rerun
    (mkSearchBar (bar_query (bar_mounted 1 0))
       (bar_suggestions (bar_mounted 1 0)) (bar_isSearching (bar_mounted 1 0))
       None true (bar_cleanup (bar_mounted 1 0)) (bar_timers (bar_mounted 1 0))).

(* ===================================================================== *)
(** ** lib/storage.ts: the other operations *)
(* ===================================================================== *)

(** [Partial<Omit<Place, 'id' | 'createdAt'>>], the second argument of
    [updatePlace]: [None] is a property that the object does not have. *)
Record PlaceUpdates : Type := mkPlaceUpdates {
  updates_name : option JS.str;
  updates_memo : option JS.str;
  updates_address : option JS.str;
  updates_latitude : option number;
  updates_longitude : option number;
  updates_tabId : option JS.str;
  updates_updatedAt : option JS.str;
}.

(** [{ ...place, ...updates, updatedAt: now }] *)
Definition spread_updates (place : Place) (updates : PlaceUpdates)
    (now : JS.str) : Place :=
  {| place_id := place_id place;
     place_name := default (place_name place) (updates_name updates);
     place_memo := default (place_memo place) (updates_memo updates);
     place_address := default (place_address place) (updates_address updates);
     place_latitude :=
       default (place_latitude place) (updates_latitude updates);
     place_longitude :=
       default (place_longitude place) (updates_longitude updates);
     place_tabId := default (place_tabId place) (updates_tabId updates);
     place_createdAt := place_createdAt place;
     place_updatedAt := now |}.

(** [updatePlace(id, updates)]; [now] is the ISO timestamp, [None] the
    [null] result. *)
Definition updatePlace (now id : JS.str) (updates : PlaceUpdates) (w : world)
  : option Place * world :=
  let places := getPlaces w in
  match list_find (λ p, place_id p = id) places with
  | None => (None, w)
  | Some (index, place) =>
      let updatedPlace := spread_updates place updates now in
      let places := <[index := updatedPlace]> places in
      (Some updatedPlace, setItem_PLACES places w)
  end.

(** [deletePlace(id)] *)
Definition deletePlace (id : JS.str) (w : world) : bool * world :=
  let places := getPlaces w in
  let filtered := filter (λ p, place_id p ≠ id) places in
  if bool_decide (length filtered = length places) then (false, w)
  else (true, setItem_PLACES filtered w).

(** [getPlaceById(id)]; [None] is [undefined]. *)
Definition getPlaceById (id : JS.str) (w : world) : option Place :=
  snd <$> list_find (λ p, place_id p = id) (getPlaces w).

(** [tabs[index] = x] on a reference to a [Tab[]].  On the shared
    [DEFAULT_TABS] array the only callers assign at the index of a custom
    tab, which lies in the pushed part, the tabs of the literal not being
    custom; an index in the literal part is left alone by the model. *)
Definition assign (a : tabs_array) (index : nat) (x : Tab) (w : world)
  : tabs_array * world :=
  match a with
  | TheDefaultTabs =>
      (TheDefaultTabs,
       mkWorld (storage w)
         (if bool_decide (length DEFAULT_TABS_literal ≤ index) then
            <[index - length DEFAULT_TABS_literal := x]>
              (DEFAULT_TABS_pushed w)
          else DEFAULT_TABS_pushed w))
  | FreshArray elems => (FreshArray (<[index := x]> elems), w)
  end.

(** [updateTab(id, name)] *)
Definition updateTab (id name : JS.str) (w : world) : option Tab * world :=
  let '(tabs, w) := getTabs w in
  match list_find (λ t, tab_id t = id ∧ tab_isCustom t) (elements tabs w) with
  | None => (None, w)
  | Some (index, tab) =>
      let renamed :=
        {| tab_id := tab_id tab; tab_name := name;
           tab_isCustom := tab_isCustom tab; tab_order := tab_order tab |} in
      let '(tabs, w) := assign tabs index renamed w in
      (elements tabs w !! index, setItem_TABS (elements tabs w) w)
  end.

(** [deleteTab(id)].  [now i] is the timestamp that the [map] callback
    reads for the place at position [i]. *)
Definition deleteTab (now : nat → JS.str) (id : JS.str) (w : world)
  : bool * world :=
  let '(tabs, w) := getTabs w in
  match snd <$> list_find (λ t, tab_id t = id) (elements tabs w) with
  | None => (false, w)
  | Some tab =>
      if negb (tab_isCustom tab) then (false, w)
      else
        let filtered := filter (λ t, tab_id t ≠ id) (elements tabs w) in
        let w := setItem_TABS filtered w in
        let places := getPlaces w in
        let updatedPlaces :=
          imap
            (λ i p,
               if bool_decide (place_tabId p = id) then
                 {| place_id := place_id p;
                    place_name := place_name p;
                    place_memo := place_memo p;
                    place_address := place_address p;
                    place_latitude := place_latitude p;
                    place_longitude := place_longitude p;
                    place_tabId := JS.lit "frequent";
                    place_createdAt := place_createdAt p;
                    place_updatedAt := now i |}
               else p)
            places in
        (true, setItem_PLACES updatedPlaces w)
  end.

Definition setItem_SETTINGS (v : AppSettings) (w : world) : world :=
  let s := storage w in
  mkWorld (mkLocalStorage (kokomemo_places s) (kokomemo_tabs s)
             (kokomemo_search_history s) (Some (Encoded v)))
    (DEFAULT_TABS_pushed w).

(** [updateSettings(updates)]; [Partial<AppSettings>] has the one optional
    property [travelMode]. *)
Definition updateSettings (updates : option TravelMode) (w : world)
  : AppSettings * world :=
  let settings := getSettings w in
  let newSettings :=
    {| travelMode := default (travelMode settings) updates |} in
  (newSettings, setItem_SETTINGS newSettings w).

(* ===================================================================== *)
(** ** pages/SearchPage.tsx and components/SearchBar.tsx: storage callers *)
(* ===================================================================== *)

Section HandleNavigate.
Context (Number_toString : number → JS.str).

(** [handleNavigate()] of the search page:
<<
  if (!selectedPlace) return;
  const settings = getSettings();
  openNavigation(selectedPlace.latitude, selectedPlace.longitude,
                 settings.travelMode);
>> *)
Definition page_handleNavigate (st : SearchPage) (w : world)
    (opened : list window_open) : list window_open :=
  match page_selectedPlace st with
  | None => opened
  | Some selectedPlace =>
      let settings := getSettings w in
      openNavigation Number_toString (result_latitude selectedPlace)
        (result_longitude selectedPlace) (Some (travelMode settings)) opened
  end.
End HandleNavigate.

(** The history suggestions that the search bar loads when it mounts:
<<
  history.slice(0, 5).map((h) => ({
    type: 'history' as const, text: h.query, placeId: h.placeId }))
>> *)
Definition bar_historySuggestions (w : world) : list BarSuggestion :=
  (λ h, {| bar_suggestion_type := type_history;
           bar_suggestion_text := history_query h;
           bar_suggestion_description := None;
           bar_suggestion_placeId := history_placeId h;
           bar_suggestion_distanceMeters := None |})
    <$> take 5 (getSearchHistory w).


(* ===================================================================== *)
(** ** components/InteractiveMap.tsx: the effects around the handlers *)
(* ===================================================================== *)

(** [cancelAnimationFrame(frame)] *)
Definition map_cancelAnimationFrame (frame : positive) (st : InteractiveMap)
  : InteractiveMap :=
  mkInteractiveMap (map_currentLocation st) (map_smoothLocation st)
    (map_targetLocationRef st) (map_animationFrameRef st) (map_heading st)
    (map_hasOrientationSensor st) (map_absoluteSupported st)
    (filter (λ f, f ≠ frame) (map_frames st)) (map_next_frame st).

(** The smoothing effect, which runs when [currentLocation] has changed:
<<
  if (!currentLocation) return;
  targetLocationRef.current = currentLocation;
  if (!smoothLocation) { setSmoothLocation(currentLocation); return; }
  const animate = ...;
  if (animationFrameRef.current) {
    cancelAnimationFrame(animationFrameRef.current);
  }
  animationFrameRef.current = requestAnimationFrame(animate);
>> *)
Definition smoothingEffect (st : InteractiveMap) : InteractiveMap :=
  match map_currentLocation st with
  | None => st
  | Some currentLocation =>
      let st :=
        mkInteractiveMap (map_currentLocation st) (map_smoothLocation st)
          (Some currentLocation) (map_animationFrameRef st) (map_heading st)
          (map_hasOrientationSensor st) (map_absoluteSupported st)
          (map_frames st) (map_next_frame st) in
      match map_smoothLocation st with
      | None => map_setSmoothLocation (Some currentLocation) st
      | Some _ =>
          let st :=
            match map_animationFrameRef st with
            | Some frame => map_cancelAnimationFrame frame st
            | None => st
            end in
          map_requestAnimationFrame st
      end
  end.

(** The browser runs the pending frames, oldest first, [n] of them at
    most. *)
Fixpoint map_run_frames (n : nat) (st : InteractiveMap) : InteractiveMap :=
  match n with
  | O => st
  | S n =>
      match map_frames st with
      | [] => st
      | frame :: _ => map_run_frames n (map_run_frame frame st)
      end
  end.

(** [handleOrientation(event)], on [event.webkitCompassHeading]; [None] is
    [undefined] or [null]. *)
Definition handleOrientation (compassHeading : option Q) (st : InteractiveMap)
  : InteractiveMap :=
  if map_absoluteSupported st then st
  else
    match compassHeading with
    | Some compassHeading =>
        mkInteractiveMap (map_currentLocation st) (map_smoothLocation st)
          (map_targetLocationRef st) (map_animationFrameRef st)
          (Some compassHeading) true (map_absoluteSupported st)
          (map_frames st) (map_next_frame st)
    | None => st
    end.

(** The events of the two listeners that the orientation effect adds. *)
Inductive orientation_event : Type :=
| deviceorientationabsolute (alpha : option Q)
| deviceorientation (webkitCompassHeading : option Q).

Definition orientation_listener (st : InteractiveMap) (e : orientation_event)
  : InteractiveMap :=
  match e with
  | deviceorientationabsolute alpha => handleAbsoluteOrientation alpha st
  | deviceorientation compassHeading => handleOrientation compassHeading st
  end.

(** [mapRef.current.getBoundingClientRect()] and [map.getBounds()]. *)
Record DOMRect : Type := mkDOMRect {
  rect_left : Q;
  rect_top : Q;
  rect_width : Q;
  rect_height : Q;
}.

Record LatLngBounds : Type := mkLatLngBounds {
  getNorthEast : Location;
  getSouthWest : Location;
}.

(** The position that [handleLongPressAt(clientX, clientY)] moves the
    marker to and reports; [None] when the map has no bounds yet:
<<
  const x = clientX - rect.left;
  const y = clientY - rect.top;
  if (ne && sw) {
    const lng = sw.lng() + (x / mapWidth) * (ne.lng() - sw.lng());
    const lat = ne.lat() - (y / mapHeight) * (ne.lat() - sw.lat());
>> *)
Definition handleLongPressAt_position (rect : DOMRect)
    (bounds : option LatLngBounds) (clientX clientY : Q) : option Location :=
  let x := (clientX - rect_left rect)%Q in
  let y := (clientY - rect_top rect)%Q in
  match bounds with
  | None => None
  | Some bounds =>
      let ne := getNorthEast bounds in
      let sw := getSouthWest bounds in
      let mapWidth := rect_width rect in
      let mapHeight := rect_height rect in
      let lng :=
        (location_lng sw +
         (x / mapWidth) * (location_lng ne - location_lng sw))%Q in
      let lat :=
        (location_lat ne -
         (y / mapHeight) * (location_lat ne - location_lat sw))%Q in
      Some (mkLocation lat lng)
  end.

(** A map element of 400 by 800 pixels at the top left of the viewport,
    showing one degree in each direction. *)
Definition sample_rect : DOMRect := mkDOMRect 0 0 400 800.

Definition sample_bounds : LatLngBounds :=
  mkLatLngBounds (mkLocation 36 140) (mkLocation 35 139).

(** The places that [deleteTab] stores: the places of the deleted tab go
    to the tab ['frequent'] with a new [updatedAt]; the others are kept as
    they are. *)
Definition moved_to_frequent (id : JS.str) (p p' : Place) : Prop :=
  if decide (place_tabId p = id) then
    place_tabId p' = JS.lit "frequent" ∧
    place_id p' = place_id p ∧ place_name p' = place_name p ∧
    place_memo p' = place_memo p ∧ place_address p' = place_address p ∧
    place_latitude p' = place_latitude p ∧
    place_longitude p' = place_longitude p ∧
    place_createdAt p' = place_createdAt p
  else p' = p.

(* ===================================================================== *)
(** ** contexts/ToastContext.tsx *)
(* ===================================================================== *)

Inductive ToastType : Type := toast_success | toast_error | toast_info.

Record Toast : Type := mkToast {
  toast_id : JS.str;
  toast_message : JS.str;
  toast_type : ToastType;
}.

(** The state of the provider: the [toasts] cell and the timeouts that
    [showToast] has set and that have not fired.  The value of such a
    timeout is the id that its callback removes. *)
Record ToastProvider : Type := mkToastProvider {
  provider_toasts : list Toast;
  provider_timers : timers;
}.

(** [removeToast(id)], also the callback of the timeout:
    [setToasts((prev) => prev.filter((t) => t.id !== id))]. *)
Definition removeToast (id : JS.str) (st : ToastProvider) : ToastProvider :=
  mkToastProvider (filter (λ t, toast_id t ≠ id) (provider_toasts st))
    (provider_timers st).

(** [showToast(message, type = 'success')]; [id] is what
    [Math.random().toString(36).slice(2)] gave. *)
Definition showToast (id message : JS.str) (type : option ToastType)
    (st : ToastProvider) : ToastProvider :=
  let type := default toast_success type in
  let toasts := provider_toasts st ++ [mkToast id message type] in
  let '(_, t) := setTimeout id 3000 (provider_timers st) in
  mkToastProvider toasts t.

(** A timeout of the provider fires: it is no longer pending and its
    callback runs. *)
Definition provider_fire (p : timeout) (st : ToastProvider) : ToastProvider :=
  removeToast (timeout_value p)
    (mkToastProvider (provider_toasts st)
       (clearTimeout (timeout_handle p) (provider_timers st))).

Definition provider_mounted (handle : positive) (now : N) : ToastProvider :=
  mkToastProvider [] (mkTimers [] handle now).

(** What can happen to the provider. *)
Inductive provider_step : ToastProvider → ToastProvider → Prop :=
| provider_show (id message : JS.str) (type : option ToastType)
    (st : ToastProvider) :
    provider_step st (showToast id message type st)
| provider_click (toast : Toast) (st : ToastProvider) :
    (** the user taps a toast on display *)
    toast ∈ provider_toasts st →
    provider_step st (removeToast (toast_id toast) st)
| provider_tick (d : N) (st : ToastProvider) :
    (** time passes *)
    provider_step st
      (mkToastProvider (provider_toasts st)
         (mkTimers (pending (provider_timers st))
            (next_handle (provider_timers st))
            (clock (provider_timers st) + d)))
| provider_timeout (p : timeout) (st : ToastProvider) :
    (** a due timeout fires *)
    p ∈ pending (provider_timers st) →
    (timeout_due p ≤ clock (provider_timers st))%N →
    provider_step st (provider_fire p st).

Inductive provider_reachable : ToastProvider → Prop :=
| provider_reachable_mounted (handle : positive) (now : N) :
    provider_reachable (provider_mounted handle now)
| provider_reachable_step (st st' : ToastProvider) :
    provider_reachable st → provider_step st st' → provider_reachable st'.

(** Every toast on display has a timeout that removes it, due within
    3000 ms of now; the pending timeouts have distinct handles, all below
    the next one. *)
Definition toasts_expire (st : ToastProvider) : Prop :=
  let t := provider_timers st in
  Forall (λ toast,
            ∃ p, p ∈ pending t ∧ timeout_value p = toast_id toast ∧
                 (timeout_due p ≤ clock t + 3000)%N)
    (provider_toasts st) ∧
  NoDup (timeout_handle <$> pending t) ∧
  Forall (λ p, (timeout_handle p < next_handle t)%positive) (pending t).

(** A toast on display, just shown. *)
Definition provider_saved : ToastProvider :=
  showToast (JS.lit "k3j9x") (JS.lit "saved") None (provider_mounted 1 0).

(* ===================================================================== *)
(** ** pages/CalendarPage.tsx and pages/HomePage.tsx *)
(* ===================================================================== *)

Section CalendarPage.

(** [format(new Date(createdAt), 'yyyy-MM-dd')]: the local calendar day of
    a timestamp (of a valid one; [format] throws on an invalid date). *)
Context (dateKey : JS.str → JS.str).

(** [datesWithPlaces], a [Map<string, Place[]>]:
<<
  places.forEach((place) => {
    const dateKey = format(new Date(place.createdAt), 'yyyy-MM-dd');
    const existing = dates.get(dateKey) || [];
    dates.set(dateKey, [...existing, place]);
  });
>> *)
Definition datesWithPlaces (places : list Place) : gmap JS.str (list Place) :=
  foldl
    (λ dates place,
       let dateKey := dateKey (place_createdAt place) in
       let existing := default [] (dates !! dateKey) in
       <[dateKey := existing ++ [place]]> dates)
    ∅ places.

(** [selectedDatePlaces]; [selectedDate] is the day key of the selected
    date, [None] when no date is selected. *)
Definition selectedDatePlaces (selectedDate : option JS.str)
    (places : list Place) : list Place :=
  match selectedDate with
  | None => []
  | Some dateKey => default [] (datesWithPlaces places !! dateKey)
  end.

End CalendarPage.

Inductive SortOption : Type := name_asc | created_desc | created_asc.

Section HomePage.

(** [a.localeCompare(b, 'ja')] and [new Date(s).getTime()], in
    milliseconds (of a valid timestamp). *)
Context (localeCompare : JS.str → JS.str → Z) (getTime : JS.str → Z).

(** The compare function of [filteredPlaces]. *)
Definition compare_places (sortOption : SortOption) (a b : Place) : Z :=
  match sortOption with
  | name_asc => localeCompare (place_name a) (place_name b)
  | created_asc =>
      (getTime (place_createdAt a) - getTime (place_createdAt b))%Z
  | created_desc =>
      (getTime (place_createdAt b) - getTime (place_createdAt a))%Z
  end.

(** [filteredPlaces] *)
Definition filteredPlaces (places : list Place) (activeTabId : JS.str)
    (sortOption : SortOption) : list Place :=
  let result := places in
  let result :=
    if decide (activeTabId ≠ JS.lit "all")
    then filter (λ p, place_tabId p = activeTabId) result
    else result in
  JS.sort (λ a b, bool_decide (0 < compare_places sortOption a b)%Z) result.

End HomePage.

(* ===================================================================== *)
(** ** pages/SearchPage.tsx: parseAddress *)
(* ===================================================================== *)

(** [\d] *)
Definition is_digit (c : N) : bool := (48 <=? c)%N && (c <=? 57)%N.

(** [\d{n}] at the start of [s]: the digits and what follows them. *)
Definition match_digits (n : nat) (s : JS.str) : option (JS.str * JS.str) :=
  let digits := take n s in
  if bool_decide (length digits = n) && forallb is_digit digits
  then Some (digits, drop n s)
  else None.

(** [\d{3}-?\d{4}] at the start of [s]: the matched text and what follows.
    A hyphen after the three digits is taken; when four digits do not
    follow it, the match is tried again without it. *)
Definition match_postal_digits (s : JS.str) : option (JS.str * JS.str) :=
  '(first, s1) ← match_digits 3 s;
  let with_hyphen :=
    match s1 with
    | c :: s2 =>
        if bool_decide (c = 45%N) then
          '(last, s3) ← match_digits 4 s2; Some (first ++ [45%N] ++ last, s3)
        else None
    | [] => None
    end in
  match with_hyphen with
  | Some r => Some r
  | None => '(last, s3) ← match_digits 4 s1; Some (first ++ last, s3)
  end.

(** [〒?\s*(\d{3}-?\d{4})] at the start of [s]: the group and what follows
    the match.  The mark U+3012 is taken when it is there, and the match is
    tried again without it when the rest fails.  [\s*] takes all the white
    space there is: with less of it, a white space character would have to
    be a digit. *)
Definition match_postal (s : JS.str) : option (JS.str * JS.str) :=
  let after_mark s := match_postal_digits (JS.trim_start s) in
  let with_mark :=
    match s with
    | c :: s1 => if bool_decide (c = 0x3012%N) then after_mark s1 else None
    | [] => None
    end in
  match with_mark with
  | Some r => Some r
  | None => after_mark s
  end.

(** The first match of [〒?\s*(\d{3}-?\d{4})] in [s]: the text before the
    match, the group, and the text after the match. *)
Fixpoint search_postal (s : JS.str) : option (JS.str * JS.str * JS.str) :=
  match match_postal s with
  | Some (group, after) => Some ([], group, after)
  | None =>
      match s with
      | [] => None
      | c :: s1 =>
          '(before, group, after) ← search_postal s1;
          Some (c :: before, group, after)
      end
  end.

(** [m.includes('-') ? m : m.slice(0, 3) + '-' + m.slice(3)] *)
Definition hyphenate (m : JS.str) : JS.str :=
  if bool_decide (45%N ∈ m) then m else take 3 m ++ [45%N] ++ drop 3 m.

(** [.replace(/^日本、?\s*/, '')]; the three characters are U+65E5, U+672C
    and U+3001. *)
Definition replace_country (s : JS.str) : JS.str :=
  if bool_decide (take 2 s = [0x65E5; 0x672C]%N) then
    let s1 := drop 2 s in
    let s2 :=
      if bool_decide (take 1 s1 = [0x3001%N]) then drop 1 s1 else s1 in
    JS.trim_start s2
  else s.

(** [.replace(/〒?\s*\d{3}-?\d{4}\s*/, '')]: the first match goes, with the
    white space after it. *)
Definition replace_postal (s : JS.str) : JS.str :=
  match search_postal s with
  | Some (before, _, after) => before ++ JS.trim_start after
  | None => s
  end.

(** [.replace(/^[,、\s]+/, '')] *)
Fixpoint replace_leading_separators (s : JS.str) : JS.str :=
  match s with
  | c :: s1 =>
      if bool_decide (c = 44%N) || bool_decide (c = 0x3001%N)
         || JS.is_white_space c
      then replace_leading_separators s1
      else s
  | [] => []
  end.

Record ParsedAddress : Type := mkParsedAddress {
  parsed_address : JS.str;
  parsed_postalCode : option JS.str;
}.

(** [parseAddress(fullAddress)] of the search page. *)
Definition parseAddress (fullAddress : JS.str) : ParsedAddress :=
  let postalMatch := search_postal fullAddress in
  let postalCode :=
    match postalMatch with
    | Some (_, group, _) => Some (hyphenate group)
    | None => None
    end in
  let address :=
    JS.trim
      (replace_leading_separators
         (replace_postal (replace_country fullAddress))) in
  {| parsed_address := address; parsed_postalCode := postalCode |}.

(** The text of a Japanese address as the geocoder gives it, with
    U+3012 before the postal code: [日本、〒150-0002 Tokyo]. *)
Definition sample_address : JS.str :=
  [0x65E5; 0x672C; 0x3001; 0x3012]%N ++ JS.lit "150-0002 Tokyo".

(* ===================================================================== *)
(** ** pages/TabsPage.tsx *)
(* ===================================================================== *)

(** The [useState] cells of the page that adding a tab touches; [tabs]
    holds the array that [getTabs()] returned, which can be the
    [DEFAULT_TABS] array itself. *)
Record TabsPage : Type := mkTabsPage {
  tabsPage_tabs : tabs_array;
  tabsPage_customTabs : list Tab;
  tabsPage_newTabName : JS.str;
}.

(** A call [showToast(message, type)]; [None] is an omitted type. *)
Definition toast_call : Type := JS.str * option ToastType.

(** ['カテゴリ名を入力してください'] *)
Definition msg_enter_name : JS.str :=
  [0x30AB; 0x30C6; 0x30B4; 0x30EA; 0x540D; 0x3092; 0x5165; 0x529B;
   0x3057; 0x3066; 0x304F; 0x3060; 0x3055; 0x3044]%N.

(** ['カテゴリは5つまでしか作成できません'] *)
Definition msg_limit : JS.str :=
  [0x30AB; 0x30C6; 0x30B4; 0x30EA; 0x306F; 0x0035; 0x3064; 0x307E;
   0x3067; 0x3057; 0x304B; 0x4F5C; 0x6210; 0x3067; 0x304D; 0x307E;
   0x305B; 0x3093]%N.

(** ['カテゴリを追加しました'] *)
Definition msg_added : JS.str :=
  [0x30AB; 0x30C6; 0x30B4; 0x30EA; 0x3092; 0x8FFD; 0x52A0; 0x3057;
   0x307E; 0x3057; 0x305F]%N.

(** ['カテゴリの追加に失敗しました'] *)
Definition msg_add_failed : JS.str :=
  [0x30AB; 0x30C6; 0x30B4; 0x30EA; 0x306E; 0x8FFD; 0x52A0; 0x306B;
   0x5931; 0x6557; 0x3057; 0x307E; 0x3057; 0x305F]%N.

(** [loadTabs()]: [setTabs(getTabs()); setCustomTabs(getCustomTabs())]. *)
Definition loadTabs (page : TabsPage) (w : world) : TabsPage * world :=
  let '(tabs, w) := getTabs w in
  let '(customTabs, w) := getCustomTabs w in
  (mkTabsPage tabs customTabs (tabsPage_newTabName page), w).

(** [handleAddTab()]: the page and the store after it, and the toasts it
    shows. *)
Definition handleAddTab (uuid : JS.str) (page : TabsPage) (w : world)
  : TabsPage * world * list toast_call :=
  let newTabName := tabsPage_newTabName page in
  if negb (JS.truthy (JS.trim newTabName)) then
    (page, w, [(msg_enter_name, Some toast_error)])
  else if bool_decide (5 ≤ length (tabsPage_customTabs page)) then
    (page, w, [(msg_limit, Some toast_error)])
  else
    let '(newTab, w) := addCustomTab uuid (JS.trim newTabName) w in
    match newTab with
    | Some _ =>
        let page :=
          mkTabsPage (tabsPage_tabs page) (tabsPage_customTabs page) [] in
        let '(page, w) := loadTabs page w in
        (page, w, [(msg_added, None)])
    | None => (page, w, [(msg_add_failed, Some toast_error)])
    end.

(** The page shows the custom tabs of the store. *)
Definition tabsPage_in_sync (page : TabsPage) (w : world) : Prop :=
  tabsPage_customTabs page = fst (getCustomTabs w).

(** Seven digits, with or without a hyphen after the third. *)
Definition postal_digits (group first last : JS.str) : Prop :=
  length first = 3 ∧ length last = 4 ∧
  forallb is_digit first = true ∧ forallb is_digit last = true ∧
  (group = first ++ last ∨ group = first ++ [45%N] ++ last).

(* ===================================================================== *)
(** ** lib/maps.ts and pages/SearchPage.tsx: selecting a suggestion *)
(* ===================================================================== *)







(** The store after five custom tabs were added since the first launch and
    the first of them was deleted. *)
Definition five_added_one_deleted : world :=
  snd (deleteTab (λ _, JS.lit "2025-03-03T00:00:00.000Z") (JS.lit "uuid-1")
         (foldl (λ w uuid, snd (addCustomTab (JS.lit uuid) (JS.lit "gym") w))
            first_launch
            ["uuid-1"; "uuid-2"; "uuid-3"; "uuid-4"; "uuid-5"]%string)).

(* ===================================================================== *)
(** ** A pair of antipodes *)
(* ===================================================================== *)

(** Negros in the Philippines, at latitude 10.85 and longitude 123, and
    the point opposite to it on the globe, in Mato Grosso, at latitude
    -10.85 and longitude -57. *)
Definition negros : MapPosition :=
  mkMapPosition 0x1.5b33333333333p+3 0x1.ecp+6.

Definition mato_grosso (id : JS.str) : SearchedPlace :=
  mkSearchedPlace (Some id) None None
    (Some (mkSearchedLocation (Some (-0x1.5b33333333333p+3)%float)
             (Some (-0x1.c8p+5)%float))).

(** The values of [Math.sin], [Math.cos] and [**] at the arguments that
    [calculateDistance] passes them for this pair, each the binary64 number
    nearest to the exact value, and [Math.sqrt]:
    [Math.sin(-0.18936822384138477)] is [-0.18823845046369228],
    [Math.sin(-1.5707963267948966)] is [-1], and
    [Math.cos(0.18936822384138477)] and [Math.cos(-0.18936822384138477)]
    are [0.9821233556773956].  The table stands for these values only:
    elsewhere, and for [Math.atan2], it says NaN. *)
Definition antipodes_Math : MathObject :=
  {| Math_sin x :=
       if (x =? -0x1.83d37cc267209p-3)%float
       then (-0x1.81832924baee1p-3)%float
       else if (x =? -0x1.921fb54442d18p+0)%float then (-1)%float
       else nan;
     Math_cos x :=
       if (x =? 0x1.83d37cc267209p-3)%float
       then 0x1.f6d8df5a8b5c8p-1%float
       else if (x =? -0x1.83d37cc267209p-3)%float
       then 0x1.f6d8df5a8b5c8p-1%float
       else nan;
     Math_sqrt x := PrimFloat.sqrt x;
     Math_atan2 y x := nan;
     exponentiate x y := if (y =? 2)%float then (x * x)%float else nan |}.

(* ===================================================================== *)
(** * Properties *)
(* ===================================================================== *)

(** ** Sorting *)

Section SortFacts.
Context {A : Type} (gt : A → A → bool).

Lemma insert_Permutation (x : A) (l : list A) : JS.insert gt x l ≡ₚ x :: l.
Proof.
  induction l as [|y l IH]; simpl; [done|].
  destruct (gt x y); [|done].
  rewrite IH. apply Permutation_swap.
Qed.

Lemma sort_Permutation (l : list A) : JS.sort gt l ≡ₚ l.
Proof.
  induction l as [|x l IH]; simpl; [done|].
  unfold JS.sort in IH. by rewrite insert_Permutation, IH.
Qed.

Lemma sort_length (l : list A) : length (JS.sort gt l) = length l.
Proof. by rewrite sort_Permutation. Qed.

Lemma sort_nil_inv (l : list A) : JS.sort gt l = [] → l = [].
Proof.
  intros H. apply Permutation_nil_r. by rewrite <- H, sort_Permutation.
Qed.

End SortFacts.

(** ** lib/storage.ts *)

(** A slot from which nothing can be read: the key is absent, or its text
    is empty or is not JSON. *)
Definition unreadable {T} (item : option (stored T)) : Prop :=
  item = None ∨ item = Some EmptyText ∨ item = Some NotJson.

Lemma safeJsonParse_unreadable {T} (item : option (stored T)) (d : T) :
  unreadable item → safeJsonParse item d = d.
Proof. by intros [-> | [-> | ->]]. Qed.

Lemma safeJsonParse_Encoded {T} (v d : T) :
  safeJsonParse (Some (Encoded v)) d = v.
Proof. done. Qed.

(** The parse that [safeJsonParse] guards does throw on such text. *)
Lemma JSON_parse_throws {T} :
  JSON_parse (T := T) NotJson = JS.Thrown "SyntaxError".
Proof. done. Qed.

(** C8.  When the text stored under a key is absent or is not valid JSON,
    every read returns its default instead of throwing: [getPlaces] and
    [getSearchHistory] return the empty list, [getSettings] returns
    [DEFAULT_SETTINGS]; and when no tabs are stored (absent, not JSON, or
    the empty list) [getTabs] returns the [DEFAULT_TABS] array and persists
    its elements under the tabs key, touching no other key. *)
Theorem reads_fall_back_to_defaults (w : world) :
  (unreadable (kokomemo_places (storage w)) → getPlaces w = []) ∧
  (unreadable (kokomemo_search_history (storage w)) →
     getSearchHistory w = []) ∧
  (unreadable (kokomemo_settings (storage w)) →
     getSettings w = DEFAULT_SETTINGS) ∧
  (unreadable (kokomemo_tabs (storage w)) ∨
   kokomemo_tabs (storage w) = Some (Encoded []) →
     let '(tabs, w') := getTabs w in
     tabs = TheDefaultTabs ∧
     elements tabs w' = DEFAULT_TABS w ∧
     kokomemo_tabs (storage w') = Some (Encoded (DEFAULT_TABS w)) ∧
     w' = setItem_TABS (DEFAULT_TABS w) w).
Proof.
  repeat split; try (intros H; by apply safeJsonParse_unreadable).
  all: intros H; unfold getTabs;
    assert (safeJsonParse (kokomemo_tabs (storage w)) [] = []) as ->
      by (destruct H as [H | ->]; [by apply safeJsonParse_unreadable|done]);
    done.
Qed.

(** C6.  [savePlace] appends exactly one new place, which carries the
    fields of its argument, the id generated for it and equal [createdAt]
    and [updatedAt]; the places stored before keep their content and
    order, and no other key changes. *)
Theorem savePlace_appends_one (uuid now : JS.str) (place : PlaceInput)
    (w : world) :
  let old := getPlaces w in
  let newPlace := fst (savePlace uuid now place w) in
  let new := getPlaces (snd (savePlace uuid now place w)) in
  new = old ++ [newPlace] ∧
  length new = S (length old) ∧
  take (length old) new = old ∧
  drop (length old) new = [newPlace] ∧
  newPlace =
    mkPlace uuid (input_name place) (input_memo place) (input_address place)
      (input_latitude place) (input_longitude place) (input_tabId place)
      now now ∧
  place_createdAt newPlace = place_updatedAt newPlace ∧
  kokomemo_tabs (storage (snd (savePlace uuid now place w))) =
    kokomemo_tabs (storage w) ∧
  kokomemo_search_history (storage (snd (savePlace uuid now place w))) =
    kokomemo_search_history (storage w) ∧
  kokomemo_settings (storage (snd (savePlace uuid now place w))) =
    kokomemo_settings (storage w) ∧
  DEFAULT_TABS (snd (savePlace uuid now place w)) = DEFAULT_TABS w.
Proof.
  intros old newPlace new.
  assert (new = old ++ [newPlace]) as Hnew by reflexivity.
  split_and!; try done.
  - rewrite Hnew, length_app. simpl. lia.
  - by rewrite Hnew, take_app_length.
  - by rewrite Hnew, drop_app_length.
Qed.

(** The ids of the stored places stay distinct as long as [uuidv4()]
    returns an id that no stored place has. *)
Lemma savePlace_ids_distinct (uuid now : JS.str) (place : PlaceInput)
    (w : world) :
  NoDup (place_id <$> getPlaces w) →
  uuid ∉ place_id <$> getPlaces w →
  NoDup (place_id <$> getPlaces (snd (savePlace uuid now place w))).
Proof.
  intros Hnodup Hfresh.
  change (getPlaces (snd (savePlace uuid now place w)))
    with (getPlaces w ++ [fst (savePlace uuid now place w)]).
  rewrite fmap_app. apply NoDup_app. split_and!; [done| |].
  - intros id Hid Hnew. simpl in Hnew.
    apply list_elem_of_singleton in Hnew. by subst id.
  - apply NoDup_singleton.
Qed.

Lemma reads_fall_back_to_defaults_witness :
  getPlaces damaged_store = [] ∧
  getSearchHistory damaged_store = [] ∧
  getSettings damaged_store = DEFAULT_SETTINGS ∧
  fst (getTabs damaged_store) = TheDefaultTabs.
Proof.
  destruct (reads_fall_back_to_defaults damaged_store) as (Hp & Hh & Hs & Ht).
  split; [apply Hp; left; reflexivity|].
  split; [apply Hh; right; right; reflexivity|].
  split; [apply Hs; right; left; reflexivity|].
  apply Ht. left; right; right; reflexivity.
Defined.

(** [addSearchHistory] stores the new entry followed by the first nineteen
    older entries with another query text. *)
Lemma addSearchHistory_stored (now query : JS.str) (placeId : option JS.str)
    (w : world) :
  getSearchHistory (addSearchHistory now query placeId w) =
    mkSearchHistory query placeId now ::
      take 19 (filter (λ h, history_query h ≠ query) (getSearchHistory w)).
Proof. done. Qed.

(** A call keeps the query texts of the history distinct. *)
Lemma addSearchHistory_NoDup (now query : JS.str) (placeId : option JS.str)
    (w : world) :
  NoDup (history_query <$> getSearchHistory w) →
  NoDup (history_query <$>
           getSearchHistory (addSearchHistory now query placeId w)).
Proof.
  intros Hnodup. rewrite addSearchHistory_stored.
  set (old := getSearchHistory w) in *.
  assert (take 19 (filter (λ h, history_query h ≠ query) old)
            `sublist_of` filter (λ h, history_query h ≠ query) old) as Htake
    by apply sublist_take.
  rewrite fmap_cons. apply NoDup_cons. split.
  - intros Hin. apply list_elem_of_fmap in Hin as (h & Hq & Hh).
    eapply elem_of_sublist in Hh; [|exact Htake].
    apply list_elem_of_filter in Hh as [Hne _]. by apply Hne.
  - eapply sublist_NoDup; [exact Hnodup|].
    apply fmap_sublist. etrans; [exact Htake|apply sublist_filter].
Qed.

(** A history that the application built never repeats a query text. *)
Lemma history_built_NoDup (w : world) :
  history_built w → NoDup (history_query <$> getSearchHistory w).
Proof.
  induction 1 as [w Hnil | now query placeId w _ IH | w _ _ | w w' _ IH Heq].
  - rewrite Hnil. constructor.
  - by apply addSearchHistory_NoDup.
  - constructor.
  - unfold getSearchHistory in *. by rewrite Heq.
Qed.

(** What [addSearchHistory] stores, whatever was stored before: at most 20
    entries, the new one first, then older entries with another query
    text in their former relative order; and query texts that were not
    repeated before are not repeated after. *)
Lemma addSearchHistory_shape (now query : JS.str) (placeId : option JS.str)
    (w : world) :
  let old := getSearchHistory w in
  let new := getSearchHistory (addSearchHistory now query placeId w) in
  length new ≤ 20 ∧
  head new = Some (mkSearchHistory query placeId now) ∧
  tail new `sublist_of` old ∧
  Forall (λ h, history_query h ≠ query) (tail new) ∧
  (NoDup (history_query <$> old) → NoDup (history_query <$> new)).
Proof.
  intros old new.
  assert (new =
            mkSearchHistory query placeId now ::
              take 19 (filter (λ h, history_query h ≠ query) old)) as Hnew
    by apply addSearchHistory_stored.
  assert (take 19 (filter (λ h, history_query h ≠ query) old)
            `sublist_of` filter (λ h, history_query h ≠ query) old) as Htake
    by apply sublist_take.
  split_and!.
  - rewrite Hnew. simpl. rewrite length_take. lia.
  - by rewrite Hnew.
  - rewrite Hnew. simpl. etrans; [exact Htake|apply sublist_filter].
  - rewrite Hnew. simpl. apply Forall_forall. intros h Hh.
    eapply elem_of_sublist in Hh; [|exact Htake].
    by apply list_elem_of_filter in Hh as [? _].
  - apply addSearchHistory_NoDup.
Qed.

(** C9.  On every store whose search history the application built
    (nothing readable under the key at first, and since then written by
    [addSearchHistory] and [clearSearchHistory] only, the functions that
    write it), after [addSearchHistory(query, placeId)] the stored history
    has at most 20 entries, no two entries with the same query text, the
    new entry, with the given query and placeId, in first position, and
    after it older entries with another query text in their former
    relative order; and the store is again one the application built. *)
Theorem addSearchHistory_bounded_ordered (now query : JS.str)
    (placeId : option JS.str) (w : world) :
  history_built w →
  let old := getSearchHistory w in
  let new := getSearchHistory (addSearchHistory now query placeId w) in
  length new ≤ 20 ∧
  NoDup (history_query <$> new) ∧
  head new = Some (mkSearchHistory query placeId now) ∧
  tail new `sublist_of` old ∧
  Forall (λ h, history_query h ≠ query) (tail new) ∧
  history_built (addSearchHistory now query placeId w).
Proof.
  intros Hbuilt old new.
  destruct (addSearchHistory_shape now query placeId w)
    as (Hlength & Hhead & Htail & Hother & Hkeep).
  split_and!; [done | | done | done | done | by constructor].
  by apply Hkeep, history_built_NoDup.
Qed.

Lemma addSearchHistory_bounded_ordered_witness :
  history_built tidy_history ∧
  history_query <$>
    getSearchHistory
      (addSearchHistory (JS.lit "2025-02-02T00:00:00.000Z") (JS.lit "cafe")
         (Some (JS.lit "ChIJ1")) tidy_history) =
    [JS.lit "cafe"; JS.lit "park"] ∧
  NoDup (history_query <$>
           getSearchHistory
             (addSearchHistory (JS.lit "2025-02-02T00:00:00.000Z")
                (JS.lit "cafe") (Some (JS.lit "ChIJ1")) tidy_history)).
Proof.
  assert (history_built tidy_history) as Hbuilt.
  { unfold tidy_history. do 2 apply history_built_add.
    apply history_built_start. reflexivity. }
  split_and!; [exact Hbuilt | reflexivity |].
  exact (proj1 (proj2
    (addSearchHistory_bounded_ordered (JS.lit "2025-02-02T00:00:00.000Z")
       (JS.lit "cafe") (Some (JS.lit "ChIJ1")) tidy_history Hbuilt))).
Defined.



(** [getTabs] never returns an empty array. *)
Lemma getTabs_nonempty (w : world) :
  let '(tabs, w') := getTabs w in elements tabs w' ≠ [].
Proof.
  unfold getTabs.
  destruct (safeJsonParse (kokomemo_tabs (storage w)) []) as [|t ts] eqn:Hs;
    [done|].
  rewrite bool_decide_eq_false_2 by done.
  case_bool_decide; cbn [elements]; [|done].
  intros Hnil. by apply sort_nil_inv in Hnil.
Qed.

(** [getTabs] writes nothing when the stored list is non-empty and holds
    the id of every element of [DEFAULT_TABS]. *)
Lemma getTabs_reads_only (w : world) (ts : list Tab) :
  kokomemo_tabs (storage w) = Some (Encoded ts) →
  ts ≠ [] →
  Forall (λ d, tab_id d ∈ tab_id <$> ts) (DEFAULT_TABS w) →
  getTabs w = (FreshArray ts, w).
Proof.
  intros Hs Hne Hall. unfold getTabs. rewrite Hs, safeJsonParse_Encoded.
  rewrite bool_decide_eq_false_2 by (by destruct ts).
  rewrite bool_decide_eq_false_2; [done|].
  assert (filter (λ t, tab_id t ∉ (list_to_set (tab_id <$> ts) : gset JS.str))
            (DEFAULT_TABS w) = []) as ->; [|simpl; lia].
  induction Hall as [|d ds Hd _ IH]; [done|].
  rewrite filter_cons_False; [exact IH|].
  intros Hnot. by apply Hnot, elem_of_list_to_set.
Qed.




(** Holding the nine default tabs is not enough for [getTabs] to leave the
    store alone.  After five custom tabs were added since the first launch
    and the first was deleted, the store holds every default tab and four
    custom tabs; the deleted tab is still an element of [DEFAULT_TABS], so
    [getTabs] merges it back in: [addCustomTab] finds five custom tabs,
    returns null, and the stored list has changed. *)
Lemma addCustomTab_null_after_deleted_tab_returns :
  let result :=
    addCustomTab (JS.lit "uuid-6") (JS.lit "gym") five_added_one_deleted in
  (∃ ts, kokomemo_tabs (storage five_added_one_deleted) = Some (Encoded ts) ∧
         Forall (λ d, tab_id d ∈ tab_id <$> ts) DEFAULT_TABS_literal ∧
         length (filter (λ t, tab_isCustom t) ts) = 4) ∧
  fst result = None ∧
  kokomemo_tabs (storage (snd result)) ≠
    kokomemo_tabs (storage five_added_one_deleted).
Proof.
  split_and!.
  - eexists. split_and!; [vm_compute; reflexivity | | reflexivity].
    apply Forall_forall. intros d Hd. apply list_elem_of_fmap.
    exists d. split; [done|].
    apply list_elem_of_In in Hd. apply list_elem_of_In.
    vm_compute in Hd |- *. intuition (subst; auto 20).
  - vm_compute. reflexivity.
  - vm_compute. discriminate.
Qed.

(** The array that [getTabs] returns on an empty store is [DEFAULT_TABS]
    itself, so the [push] of [addCustomTab] grows [DEFAULT_TABS] as well:
    after a first [addCustomTab] on a fresh store, the new tab is an element
    of [DEFAULT_TABS]. *)
Lemma addCustomTab_first_launch_grows_DEFAULT_TABS (uuid name : JS.str) :
  DEFAULT_TABS (snd (addCustomTab uuid name first_launch)) =
    DEFAULT_TABS_literal ++ [mkTab uuid name true 9].
Proof. reflexivity. Qed.

(** ** lib/maps.ts *)

(** C7.  [openNavigation] makes exactly one [window.open] call, in a new
    tab, on the URL
    [https://www.google.com/maps/dir/?api=1&destination={latitude},{longitude}&travelmode={travelMode}];
    the travel mode is ['driving'] when the argument is omitted. *)
Theorem openNavigation_url (Number_toString : number → JS.str)
    (latitude longitude : number) (travelMode : option TravelMode)
    (opened : list window_open) :
  let mode := match travelMode with Some m => m | None => driving end in
  let opened' :=
    openNavigation Number_toString latitude longitude travelMode opened in
  length opened' = S (length opened) ∧
  take (length opened) opened' = opened ∧
  drop (length opened) opened' =
    [ mkOpen
        (JS.lit "https://www.google.com/maps/dir/?api=1&destination="
           ++ Number_toString latitude ++ JS.lit ","
           ++ Number_toString longitude ++ JS.lit "&travelmode="
           ++ travelMode_text mode)
        (JS.lit "_blank") ] ∧
  openNavigation Number_toString latitude longitude None opened =
    openNavigation Number_toString latitude longitude (Some driving) opened.
Proof.
  intros mode opened'. subst opened'. unfold openNavigation.
  split_and!.
  - rewrite length_app. simpl. lia.
  - by rewrite take_app_length.
  - rewrite drop_app_length. by destruct travelMode.
  - done.
Qed.

(** Were every number to print as 35.68, and no travel mode given, the
    page opened would be the driving route to 35.68,35.68. *)
Lemma openNavigation_example (latitude longitude : number) :
  openNavigation (λ _, JS.lit "35.68") latitude longitude None [] =
    [ mkOpen
        (JS.lit
           "https://www.google.com/maps/dir/?api=1&destination=35.68,35.68&travelmode=driving")
        (JS.lit "_blank") ].
Proof. reflexivity. Qed.

Section SortedFacts.
Context {A : Type} (gt : A → A → bool) (le : A → A → Prop).
Context (le_trans : Transitive le).
Context (gt_false : ∀ a b, gt a b = false → le a b).
Context (gt_true : ∀ a b, gt a b = true → le b a).

Lemma insert_StronglySorted (x : A) (l : list A) :
  StronglySorted le l → StronglySorted le (JS.insert gt x l).
Proof using le_trans gt_false gt_true.
  induction 1 as [|y l Hl IH Hy]; simpl.
  - repeat constructor.
  - destruct (gt x y) eqn:Hxy.
    + constructor; [exact IH|].
      rewrite insert_Permutation. constructor; [by apply gt_true | exact Hy].
    + constructor; [by constructor|].
      constructor; [by apply gt_false|].
      eapply Forall_impl; [exact Hy|].
      intros z Hz. etrans; [by apply gt_false | exact Hz].
Qed.

Lemma sort_StronglySorted (l : list A) : StronglySorted le (JS.sort gt l).
Proof using le_trans gt_false gt_true.
  induction l as [|x l IH]; [constructor|].
  by apply insert_StronglySorted.
Qed.

End SortedFacts.

(** C2.  At a pair of antipodes the rounding of binary64 arithmetic takes
    the haversine term [a] of [calculateDistance] above 1: from Negros
    (10.85, 123) to the opposite point (-10.85, -57), on every platform on
    which [Math.sin], [Math.cos] and [**] give the binary64 numbers nearest
    to the exact values at the arguments passed, and on which [Math.sqrt]
    of a negative number and [Math.atan2] of NaN are NaN, as ECMAScript
    requires, [a] is 1.0000000000000002, [1 - a] is negative, its square
    root is NaN, and [calculateDistance] returns NaN instead of half the
    circumference.  [searchNearbyPlaces] then returns results whose
    [distanceMeters] is NaN and which are in no non-decreasing order, since
    no number is less than or equal to NaN. *)
Theorem searchNearbyPlaces_distance_NaN `{!MathObject} (query apiKey : JS.str)
    (radius : option float) (id1 id2 : JS.str) :
  Math_sin (-0x1.83d37cc267209p-3) = (-0x1.81832924baee1p-3)%float →
  Math_sin (-0x1.921fb54442d18p+0) = (-1)%float →
  Math_cos 0x1.83d37cc267209p-3 = 0x1.f6d8df5a8b5c8p-1%float →
  Math_cos (-0x1.83d37cc267209p-3) = 0x1.f6d8df5a8b5c8p-1%float →
  exponentiate (-0x1.81832924baee1p-3) 2 = 0x1.2245e279ce3a1p-5%float →
  exponentiate (-1) 2 = 1%float →
  Math_sqrt (-0x1p-52) = nan →
  (∀ y, Math_atan2 y nan = nan) →
  let results :=
    searchNearbyPlaces query negros apiKey radius
      (response_json (Some [mato_grosso id1; mato_grosso id2])) in
  calculateDistance 0x1.5b33333333333p+3 0x1.ecp+6
    (-0x1.5b33333333333p+3) (-0x1.c8p+5) = nan ∧
  nearby_placeId <$> results =
    [strip_places_prefix id1; strip_places_prefix id2] ∧
  nearby_distanceMeters <$> results = [nan; nan] ∧
  ¬ StronglySorted
      (λ a b, (nearby_distanceMeters a <=? nearby_distanceMeters b)%float
                = true)
      results.
Proof.
  intros Hsin_lat Hsin_lng Hcos1 Hcos2 Hpow_lat Hpow_lng Hsqrt Hatan2 results.
  assert (calculateDistance 0x1.5b33333333333p+3 0x1.ecp+6
            (-0x1.5b33333333333p+3) (-0x1.c8p+5) = nan) as Hnan.
  { unfold calculateDistance.
    change (((-0x1.5b33333333333p+3 - 0x1.5b33333333333p+3) * Math_PI / 180)
              / 2)%float with (-0x1.83d37cc267209p-3)%float.
    change (((-0x1.c8p+5 - 0x1.ecp+6) * Math_PI / 180) / 2)%float
      with (-0x1.921fb54442d18p+0)%float.
    change (0x1.5b33333333333p+3 * Math_PI / 180)%float
      with 0x1.83d37cc267209p-3%float.
    change (-0x1.5b33333333333p+3 * Math_PI / 180)%float
      with (-0x1.83d37cc267209p-3)%float.
    rewrite Hsin_lat, Hsin_lng, Hcos1, Hcos2, Hpow_lat, Hpow_lng.
    change (0x1.2245e279ce3a1p-5 +
            0x1.f6d8df5a8b5c8p-1 * 0x1.f6d8df5a8b5c8p-1 * 1)%float
      with 0x1.0000000000001p+0%float.
    change (1 - 0x1.0000000000001p+0)%float with (-0x1p-52)%float.
    rewrite Hsqrt, Hatan2. reflexivity. }
  assert (results =
            [mkNearbyPlaceResult (strip_places_prefix id1) [] []
               (-0x1.5b33333333333p+3) (-0x1.c8p+5) nan;
             mkNearbyPlaceResult (strip_places_prefix id2) [] []
               (-0x1.5b33333333333p+3) (-0x1.c8p+5) nan]) as Hresults.
  { unfold results, searchNearbyPlaces, toNearbyPlaceResult, negros.
    cbn [fmap list_fmap mato_grosso searched_id searched_displayName
         searched_formattedAddress searched_location position_lat
         position_lng default].
    change (coordinate_or_0 _ searched_latitude)
      with (-0x1.5b33333333333p+3)%float.
    change (coordinate_or_0 _ searched_longitude) with (-0x1.c8p+5)%float.
    rewrite Hnan. reflexivity. }
  split_and!; [exact Hnan | by rewrite Hresults | by rewrite Hresults |].
  rewrite Hresults. intros Hsorted.
  apply StronglySorted_inv in Hsorted as [_ Hfirst].
  apply Forall_cons in Hfirst as [Hle _]. cbn in Hle. discriminate.
Qed.

Lemma searchNearbyPlaces_distance_NaN_witness :
  nearby_distanceMeters <$>
    searchNearbyPlaces (H := antipodes_Math) (JS.lit "cafe") negros
      (JS.lit "key") None
      (response_json
         (Some [mato_grosso (JS.lit "ChIJ1"); mato_grosso (JS.lit "ChIJ2")]))
  = [nan; nan].
Proof.
  refine (proj1 (proj2 (proj2
    (searchNearbyPlaces_distance_NaN (H := antipodes_Math) (JS.lit "cafe")
       (JS.lit "key") None (JS.lit "ChIJ1") (JS.lit "ChIJ2")
       _ _ _ _ _ _ _ _)))); try reflexivity.
Defined.

(** ** components/InteractiveMap.tsx *)

(** C3.  A step of the smoothing animation, from the smoothed position [c]
    towards the target [t], moves each coordinate to [c + (t - c) * 0.15]
    and requests the next frame, except that when the new position is
    within 0.0000001 of the target (sum of the absolute differences of the
    coordinates) the smoothed position becomes [t] itself and no frame is
    requested: the animation stops. *)
Theorem animate_interpolates_or_snaps (st : InteractiveMap) (c t : Location) :
  map_smoothLocation st = Some c →
  map_targetLocationRef st = Some t →
  let new :=
    mkLocation
      (location_lat c + (location_lat t - location_lat c) * 0.15)
      (location_lng c + (location_lng t - location_lng c) * 0.15) in
  let dist :=
    (Qabs (location_lat t - location_lat new) +
     Qabs (location_lng t - location_lng new))%Q in
  (dist < 0.0000001 →
     map_smoothLocation (animate st) = Some t ∧
     map_frames (animate st) = map_frames st)%Q ∧
  (¬ (dist < 0.0000001)%Q →
     map_smoothLocation (animate st) = Some new ∧
     map_frames (animate st) = map_frames st ++ [map_next_frame st] ∧
     map_animationFrameRef (animate st) = Some (map_next_frame st)).
Proof.
  intros Hc Ht new dist. unfold animate. rewrite Ht, Hc.
  fold new. change (Qabs _ + Qabs _)%Q with dist.
  destruct (Qlt_le_dec dist 0.0000001) as [Hlt | Hge]; split; try done.
  intros Hnot. by apply Qle_not_lt in Hnot.
Qed.

Lemma animate_interpolates_or_snaps_witness :
  map_smoothLocation (animate map_far) = Some (mkLocation 35.075 139.075) ∧
  map_frames (animate map_far) = [2%positive] ∧
  map_smoothLocation (animate map_near) = Some (mkLocation 35 139) ∧
  map_frames (animate map_near) = [].
Proof.
  destruct (animate_interpolates_or_snaps map_far (mkLocation 35 139)
              (mkLocation 35.5 139.5) eq_refl eq_refl) as [_ Hfar].
  destruct (animate_interpolates_or_snaps map_near
              (mkLocation 35.00000001 139) (mkLocation 35 139)
              eq_refl eq_refl) as [Hnear _].
  destruct Hfar as (Hs & Hf & _); [vm_compute; discriminate|].
  destruct Hnear as (Hs' & Hf'); [vm_compute; reflexivity|].
  rewrite Hs, Hf, Hs', Hf'. vm_compute. done.
Defined.

(** When the only requested frame runs and its step reaches the target,
    no frame is left: nothing animates until the location changes again. *)
Lemma map_run_frame_last (frame : positive) (st : InteractiveMap)
    (c t : Location) :
  map_frames st = [frame] →
  map_smoothLocation st = Some c →
  map_targetLocationRef st = Some t →
  (Qabs (location_lat t -
         (location_lat c + (location_lat t - location_lat c) * 0.15)) +
   Qabs (location_lng t -
         (location_lng c + (location_lng t - location_lng c) * 0.15))
   < 0.0000001)%Q →
  map_frames (map_run_frame frame st) = [] ∧
  map_smoothLocation (map_run_frame frame st) = Some t.
Proof.
  intros Hframes Hc Ht Hnear. unfold map_run_frame, animate. simpl.
  rewrite Ht, Hc, Hframes.
  destruct (Qlt_le_dec _ _) as [_ | Hfar]; simpl.
  - by rewrite filter_cons_False by (by intros []).
  - by apply Qle_not_lt in Hfar.
Qed.

(** On a rational that is not negative, truncation is the floor. *)
Lemma Q_truncate_floor (q : Q) : (0 <= q)%Q → Q_truncate q = Qfloor q.
Proof.
  destruct q as [n d]. unfold Qle, Q_truncate, Qfloor. simpl. intros Hn.
  apply Z.quot_div_nonneg; lia.
Qed.

(** The remainder of a number that is not negative by 360 lies in
    [0, 360). *)
Lemma js_remainder_360_range (x : Q) :
  (0 <= x → 0 <= js_remainder x 360 < 360)%Q.
Proof.
  intros Hx. unfold js_remainder.
  assert (x == 360 * (x / 360))%Q as Hq by (field; discriminate).
  assert (0 <= x / 360)%Q as Hq0.
  { apply Qle_shift_div_l; [reflexivity|]. by rewrite Qmult_0_l. }
  rewrite (Q_truncate_floor _ Hq0).
  pose proof (Qfloor_le (x / 360)) as Hlo.
  pose proof (Qlt_floor (x / 360)) as Hhi.
  rewrite inject_Z_plus in Hhi.
  set (f := inject_Z (Qfloor (x / 360))) in *.
  set (q := (x / 360)%Q) in *.
  change (inject_Z 1) with 1%Q in Hhi.
  clearbody f. clearbody q. split; Lqa.lra.
Qed.

(** C5.  An absolute orientation event whose [alpha] is not null sets the
    heading to [(360 - alpha) % 360], which differs from [-alpha] by a
    whole number of turns (counterclockwise turned into clockwise); for
    every [alpha] in [0, 360] that heading lies in [0, 360). *)
Theorem heading_is_clockwise_alpha (st : InteractiveMap) (alpha : Q) :
  let heading := js_remainder (360 - alpha) 360 in
  map_heading (handleAbsoluteOrientation (Some alpha) st) = Some heading ∧
  (∃ turns : Z, heading == - alpha + 360 * inject_Z turns)%Q ∧
  (0 <= alpha <= 360 → 0 <= heading < 360)%Q.
Proof.
  intros heading. split_and!.
  - done.
  - exists (1 - Q_truncate ((360 - alpha) / 360))%Z.
    unfold heading, js_remainder.
    unfold Z.sub. rewrite inject_Z_plus, inject_Z_opp.
    change (inject_Z 1) with 1%Q. ring.
  - intros [H0 H360]. apply js_remainder_360_range. Lqa.lra.
Qed.

Lemma heading_is_clockwise_alpha_witness :
  (0 <= 90 <= 360)%Q ∧ (0 <= js_remainder (360 - 90) 360 < 360)%Q.
Proof.
  assert (0 <= 90 <= 360)%Q as H by (split; vm_compute; discriminate).
  split; [exact H|].
  exact (proj2 (proj2 (heading_is_clockwise_alpha map_far 90)) H).
Defined.

(** A quarter turn counterclockwise is three quarters clockwise, and both
    ends of the range of [alpha] give heading 0. *)
Lemma heading_examples :
  js_remainder (360 - 90) 360 = 270%Q ∧
  (js_remainder (360 - 0) 360 == 0)%Q ∧
  (js_remainder (360 - 360) 360 == 0)%Q.
Proof. split_and!; vm_compute; reflexivity. Qed.

(** ** Suggestion merge: pages/SearchPage.tsx, components/SearchBar.tsx *)

Section MergeFacts.
Context {A B : Type} (idA : A → JS.str) (idB : B → JS.str).

(** Filtering on the [Set] of ids is filtering on the ids. *)
Lemma filter_not_in_set (xs : list A) (ys : list B) :
  filter (λ y, idB y ∉ (list_to_set (idA <$> xs) : gset JS.str)) ys =
  filter (λ y, idB y ∉ idA <$> xs) ys.
Proof. apply list_filter_iff. intros y. by rewrite elem_of_list_to_set. Qed.

Lemma kept_ids_not_nearby (xs : list A) (ys : list B) (id : JS.str) :
  id ∈ idB <$> filter (λ y, idB y ∉ idA <$> xs) ys → id ∉ idA <$> xs.
Proof.
  intros Hin. apply list_elem_of_fmap in Hin as (y & -> & Hy).
  by apply list_elem_of_filter in Hy as [Hy _].
Qed.

Lemma merged_ids_NoDup (xs : list A) (ys : list B) :
  NoDup (idA <$> xs) → NoDup (idB <$> ys) →
  NoDup ((idA <$> xs) ++ (idB <$> filter (λ y, idB y ∉ idA <$> xs) ys)).
Proof.
  intros Hxs Hys. apply NoDup_app. split_and!.
  - exact Hxs.
  - intros id Hx Hy. by apply kept_ids_not_nearby in Hy.
  - eapply sublist_NoDup; [exact Hys|]. apply fmap_sublist, sublist_filter.
Qed.

End MergeFacts.

(** The merged lists, with membership in the [Set] of nearby ids read as
    occurrence among the nearby ids. *)
Lemma mergeSuggestions_eq (nearbyResults : list NearbyPlaceResult)
    (autocompleteResults : list AutocompleteResult) :
  mergeSuggestions nearbyResults autocompleteResults =
    ((λ r, mkSuggestion (nearby_name r) (Some (nearby_address r))
             (nearby_placeId r) (Some (nearby_distanceMeters r)))
       <$> nearbyResults) ++
    ((λ r, mkSuggestion (autocomplete_mainText r)
             (Some (autocomplete_secondaryText r)) (autocomplete_placeId r)
             (autocomplete_distanceMeters r))
       <$> filter (λ r, autocomplete_placeId r ∉ nearby_placeId <$> nearbyResults)
             autocompleteResults).
Proof.
  unfold mergeSuggestions.
  by rewrite (filter_not_in_set nearby_placeId autocomplete_placeId).
Qed.

Lemma bar_mergeSuggestions_eq (nearbyResults : list NearbyPlaceResult)
    (predictions : list AutocompletePrediction) :
  bar_mergeSuggestions nearbyResults predictions =
    ((λ r, mkBarSuggestion type_nearby (nearby_name r)
             (Some (nearby_address r)) (Some (nearby_placeId r))
             (Some (nearby_distanceMeters r)))
       <$> nearbyResults) ++
    ((λ p, mkBarSuggestion type_place (prediction_main_text p)
             (Some (prediction_secondary_text p))
             (Some (prediction_place_id p)) (prediction_distance_meters p))
       <$> filter (λ p, prediction_place_id p ∉ nearby_placeId <$> nearbyResults)
             predictions).
Proof.
  unfold bar_mergeSuggestions.
  by rewrite (filter_not_in_set nearby_placeId prediction_place_id).
Qed.

(** C1, as the code has it.  The merged suggestion list, in [SearchPage]
    and in [SearchBar] alike, consists of all nearby results first, in
    their order, followed by exactly those autocomplete results, in their
    order, whose placeId does not occur among those of the nearby results;
    so no placeId of the second part occurs in the first, and no placeId
    appears twice in the merged list provided none appears twice in either
    result list. *)
Theorem merged_suggestions_nearby_first
    (nearbyResults : list NearbyPlaceResult)
    (autocompleteResults : list AutocompleteResult)
    (predictions : list AutocompletePrediction) :
  let nearbyIds := nearby_placeId <$> nearbyResults in
  let kept :=
    filter (λ r, autocomplete_placeId r ∉ nearbyIds) autocompleteResults in
  let kept_predictions :=
    filter (λ p, prediction_place_id p ∉ nearbyIds) predictions in
  let merged := mergeSuggestions nearbyResults autocompleteResults in
  let bar_merged := bar_mergeSuggestions nearbyResults predictions in
  merged =
    ((λ r, mkSuggestion (nearby_name r) (Some (nearby_address r))
             (nearby_placeId r) (Some (nearby_distanceMeters r)))
       <$> nearbyResults) ++
    ((λ r, mkSuggestion (autocomplete_mainText r)
             (Some (autocomplete_secondaryText r)) (autocomplete_placeId r)
             (autocomplete_distanceMeters r))
       <$> kept) ∧
  bar_merged =
    ((λ r, mkBarSuggestion type_nearby (nearby_name r)
             (Some (nearby_address r)) (Some (nearby_placeId r))
             (Some (nearby_distanceMeters r)))
       <$> nearbyResults) ++
    ((λ p, mkBarSuggestion type_place (prediction_main_text p)
             (Some (prediction_secondary_text p))
             (Some (prediction_place_id p)) (prediction_distance_meters p))
       <$> kept_predictions) ∧
  suggestion_placeId <$> merged =
    nearbyIds ++ (autocomplete_placeId <$> kept) ∧
  bar_suggestion_placeId <$> bar_merged =
    Some <$> (nearbyIds ++ (prediction_place_id <$> kept_predictions)) ∧
  (∀ id, id ∈ autocomplete_placeId <$> kept → id ∉ nearbyIds) ∧
  (∀ id, id ∈ prediction_place_id <$> kept_predictions → id ∉ nearbyIds) ∧
  (NoDup nearbyIds →
     (NoDup (autocomplete_placeId <$> autocompleteResults) →
        NoDup (suggestion_placeId <$> merged)) ∧
     (NoDup (prediction_place_id <$> predictions) →
        NoDup (bar_suggestion_placeId <$> bar_merged))).
Proof.
  intros nearbyIds kept kept_predictions merged bar_merged.
  assert (suggestion_placeId <$> merged =
            nearbyIds ++ (autocomplete_placeId <$> kept)) as Hids.
  { unfold merged. rewrite mergeSuggestions_eq, fmap_app, <- !list_fmap_compose.
    reflexivity. }
  assert (bar_suggestion_placeId <$> bar_merged =
            Some <$> (nearbyIds ++ (prediction_place_id <$> kept_predictions)))
    as Hbar_ids.
  { unfold bar_merged, nearbyIds.
    rewrite bar_mergeSuggestions_eq, !fmap_app, <- !list_fmap_compose.
    reflexivity. }
  split_and!.
  - apply mergeSuggestions_eq.
  - apply bar_mergeSuggestions_eq.
  - exact Hids.
  - exact Hbar_ids.
  - apply kept_ids_not_nearby.
  - apply kept_ids_not_nearby.
  - intros Hnearby. split; intros Hother.
    + rewrite Hids. by apply merged_ids_NoDup.
    + rewrite Hbar_ids. apply (NoDup_fmap_2 Some).
      by apply merged_ids_NoDup.
Qed.

Lemma merged_suggestions_nearby_first_witness :
  NoDup (suggestion_placeId <$>
           mergeSuggestions
             [sample_nearby "ChIJ1" "Cafe A"; sample_nearby "ChIJ2" "Cafe B"]
             [sample_autocomplete "ChIJ2" "Cafe B";
              sample_autocomplete "ChIJ3" "Cafe C"]) ∧
  NoDup (bar_suggestion_placeId <$>
           bar_mergeSuggestions
             [sample_nearby "ChIJ1" "Cafe A"; sample_nearby "ChIJ2" "Cafe B"]
             [sample_prediction "ChIJ2" "Cafe B";
              sample_prediction "ChIJ3" "Cafe C"]).
Proof.
  pose proof
    (merged_suggestions_nearby_first
       [sample_nearby "ChIJ1" "Cafe A"; sample_nearby "ChIJ2" "Cafe B"]
       [sample_autocomplete "ChIJ2" "Cafe B";
        sample_autocomplete "ChIJ3" "Cafe C"]
       [sample_prediction "ChIJ2" "Cafe B";
        sample_prediction "ChIJ3" "Cafe C"])
    as (_ & _ & _ & _ & _ & _ & Hnodup).
  destruct Hnodup as [Hpage Hbar].
  { apply NoDup_ListNoDup. repeat constructor; simpl; intuition discriminate. }
  split; [apply Hpage | apply Hbar];
    apply NoDup_ListNoDup; repeat constructor; simpl; intuition discriminate.
Defined.

(** C1 as stated fails when a result list itself repeats a placeId: here
    the autocomplete search returns the id ChIJ2 twice, no nearby result
    has it, and both occurrences stay in the merged list. *)
Lemma merged_suggestions_can_repeat_a_placeId :
  ¬ NoDup (suggestion_placeId <$>
             mergeSuggestions [sample_nearby "ChIJ1" "Cafe A"]
               [sample_autocomplete "ChIJ2" "Cafe B";
                sample_autocomplete "ChIJ2" "Cafe B (2F)"]).
Proof.
  rewrite mergeSuggestions_eq, fmap_app, <- !list_fmap_compose.
  intros Hnodup. apply NoDup_app in Hnodup as (_ & _ & Hkept).
  vm_compute in Hkept.
  apply NoDup_cons in Hkept as [Hnotin _]. apply Hnotin. by left.
Qed.

(** A run of [executeSearch] that is not overtaken by a newer query stores
    the merge of what the two searches returned for its query, and any run
    ends with [isSearching] false. *)
Lemma executeSearch_stores_merge `{!MathObject} (key searchQuery : JS.str)
    (origin : MapPosition) (run : search_run) (st : SearchPage) :
  JS.truthy key = true →
  run_origin run = Some origin →
  run_query_after_autocomplete run = searchQuery →
  run_query_after_nearby run = searchQuery →
  page_suggestions (executeSearch key searchQuery run st) =
    mergeSuggestions
      (searchNearbyPlaces searchQuery origin key None (run_nearby_response run))
      (run_autocomplete run).
Proof.
  intros Hkey Horigin Hq1 Hq2. unfold executeSearch.
  rewrite Hkey, Horigin. simpl.
  by rewrite !bool_decide_eq_false_2 by (by intros []).
Qed.

Lemma executeSearch_ends_searching `{!MathObject} (key searchQuery : JS.str)
    (run : search_run) (st : SearchPage) :
  page_isSearching (executeSearch key searchQuery run st) = false ∧
  page_timers (executeSearch key searchQuery run st) = page_timers st ∧
  page_debounceRef (executeSearch key searchQuery run st) = page_debounceRef st.
Proof.
  unfold executeSearch. destruct (negb (JS.truthy key)); [done|].
  repeat case_bool_decide; done.
Qed.

(** ** Debounced search *)

(** At most one search timeout is pending, and it is the one that the
    component remembers: [debounceRef.current] in [SearchPage], the timer of
    the cleanup function in [SearchBar]. *)
Definition debounced (remembered : option positive) (t : timers) : Prop :=
  pending t = [] ∨
  ∃ p, pending t = [p] ∧ remembered = Some (timeout_handle p) ∧
       (timeout_handle p < next_handle t)%positive.

Lemma debounced_clear (remembered : option positive) (t : timers) :
  debounced remembered t →
  pending (match remembered with
           | Some handle => clearTimeout handle t
           | None => t
           end) = [].
Proof.
  intros [Hnil | (p & Hp & -> & _)].
  - destruct remembered; simpl; by rewrite Hnil.
  - simpl. rewrite Hp. by rewrite filter_cons_False by (by intros []).
Qed.

Lemma debounced_fire (remembered : option positive) (t : timers) (p : timeout) :
  debounced remembered t → p ∈ pending t →
  pending (clearTimeout (timeout_handle p) t) = [].
Proof.
  intros [Hnil | (p' & Hp & _)] Hin.
  - rewrite Hnil in Hin. by apply elem_of_nil in Hin.
  - simpl. rewrite Hp in Hin |- *.
    apply list_elem_of_singleton in Hin as ->.
    by rewrite filter_cons_False by (by intros []).
Qed.

Lemma handleInputChange_timers (value : JS.str) (st : SearchPage) :
  debounced (page_debounceRef st) (page_timers st) →
  let st' := handleInputChange value st in
  (JS.trim value = [] →
     pending (page_timers st') = [] ∧
     page_suggestions st' = [] ∧ page_isSearching st' = false) ∧
  (JS.trim value ≠ [] →
     pending (page_timers st') =
       [mkTimeout (next_handle (page_timers st))
          (clock (page_timers st) + 800) value] ∧
     page_isSearching st' = true) ∧
  debounced (page_debounceRef st') (page_timers st').
Proof.
  intros Hinv. pose proof (debounced_clear _ _ Hinv) as Hclear.
  unfold handleInputChange. simpl.
  destruct (page_debounceRef st) as [handle|] eqn:Href; simpl in *.
  - destruct (JS.trim value) as [|c s] eqn:Htrim; simpl.
    + split_and!; [done | done | by left].
    + rewrite Hclear. split_and!; [done | done |].
      right. eexists. split_and!; [done..|]. simpl. lia.
  - destruct (JS.trim value) as [|c s] eqn:Htrim; simpl.
    + split_and!; [done | done | by left].
    + rewrite Hclear. split_and!; [done | done |].
      right. eexists. split_and!; [done..|]. simpl. lia.
Qed.

Lemma page_step_debounced `{!MathObject} (key : JS.str)
    (st st' : SearchPage) :
  page_step key st st' →
  debounced (page_debounceRef st) (page_timers st) →
  debounced (page_debounceRef st') (page_timers st').
Proof.
  intros Hstep Hinv. destruct Hstep as
    [value st | term st | d st | p st Hin Hdue | q run st Hq
    | st st' Href Hpend Hclock Hnext].
  - by apply handleInputChange_timers.
  - left. pose proof (debounced_clear _ _ Hinv) as Hclear.
    unfold handleQuickSearch, executeSearch_start.
    destruct (negb (JS.truthy key)); simpl; by destruct (page_debounceRef st).
  - exact Hinv.
  - left. unfold executeSearch_start.
    destruct (negb (JS.truthy key)); simpl; by eapply debounced_fire.
  - destruct (executeSearch_ends_searching key q run
                (page_setRunning (filter (λ q', q' ≠ q) (page_running st)) st))
      as (_ & -> & ->).
    exact Hinv.
  - destruct Hinv as [Hnil | (p & Hp & Hr & Hlt)].
    + left. by rewrite Hpend.
    + right. exists p. rewrite Hpend, Href. split_and!; [done..|]. lia.
Qed.

Lemma page_reachable_debounced `{!MathObject} (key : JS.str)
    (st : SearchPage) :
  page_reachable key st → debounced (page_debounceRef st) (page_timers st).
Proof.
  induction 1 as [handle now | st st' _ IH Hstep]; [by left|].
  by eapply page_step_debounced.
Qed.

Lemma debounced_length (remembered : option positive) (t : timers) :
  debounced remembered t → length (pending t) ≤ 1.
Proof. intros [-> | (p & -> & _)]; simpl; lia. Qed.

(** The search timeouts pending before are gone once the remembered one
    is cleared and a fresh one is set. *)
Lemma debounced_cancelled (remembered : option positive) (t : timers)
    (value : JS.str) (delay : N) (p : timeout) :
  debounced remembered t → p ∈ pending t →
  p ∉ [mkTimeout (next_handle t) (clock t + delay) value].
Proof.
  intros [Hnil | (p' & Hp & _ & Hlt)] Hin.
  - rewrite Hnil in Hin. by apply elem_of_nil in Hin.
  - rewrite Hp in Hin. apply list_elem_of_singleton in Hin as ->.
    intros Heq. apply list_elem_of_singleton in Heq. subst p'. simpl in Hlt. lia.
Qed.

Lemma searchEffect_rerun_timers (st : SearchBar) :
  debounced (bar_cleanup st) (bar_timers st) →
  let st' := searchEffect_rerun st in
  (JS.trim (bar_query st) = [] →
     pending (bar_timers st') = [] ∧
     bar_suggestions st' = [] ∧ bar_isSearching st' = false) ∧
  (JS.trim (bar_query st) ≠ [] → bar_isReady st = true →
     pending (bar_timers st') =
       [mkTimeout (next_handle (bar_timers st))
          (clock (bar_timers st) + 800) (bar_query st)] ∧
     bar_isSearching st' = true) ∧
  (JS.trim (bar_query st) ≠ [] → bar_isReady st = false →
     pending (bar_timers st') = [] ∧
     bar_suggestions st' = bar_suggestions st ∧
     bar_isSearching st' = bar_isSearching st) ∧
  debounced (bar_cleanup st') (bar_timers st').
Proof.
  intros Hinv. pose proof (debounced_clear _ _ Hinv) as Hclear.
  unfold searchEffect_rerun, searchEffect_cleanup, searchEffect.
  destruct (bar_cleanup st) as [timer|] eqn:Hcleanup; simpl in *.
  - destruct (JS.trim (bar_query st)) as [|c s] eqn:Htrim; simpl.
    + split_and!; [done | done | done | by left].
    + destruct (bar_isReady st); simpl.
      * rewrite Hclear. split_and!; [done | done | done |].
        right. eexists. split_and!; [done..|]. simpl. lia.
      * split_and!; [done | done | by intros; split_and! | by left].
  - destruct (JS.trim (bar_query st)) as [|c s] eqn:Htrim; simpl.
    + split_and!; [done | done | done | by left].
    + destruct (bar_isReady st); simpl.
      * rewrite Hclear. split_and!; [done | done | done |].
        right. eexists. split_and!; [done..|]. simpl. lia.
      * split_and!; [done | done | by intros; split_and! | by left].
Qed.

Lemma bar_step_debounced (st st' : SearchBar) :
  bar_step st st' →
  debounced (bar_cleanup st) (bar_timers st) →
  debounced (bar_cleanup st') (bar_timers st').
Proof.
  intros Hstep Hinv. destruct Hstep as
    [value st | location ready st | d st | p suggestions st Hin Hdue
    | st st' _ _ _ Hcleanup Hpend Hclock Hnext].
  - unfold bar_handleInputChange. case_bool_decide; [done|].
    by apply searchEffect_rerun_timers.
  - by apply searchEffect_rerun_timers.
  - exact Hinv.
  - left. simpl. by eapply debounced_fire.
  - destruct Hinv as [Hnil | (p & Hp & Hr & Hlt)].
    + left. by rewrite Hpend.
    + right. exists p. rewrite Hpend, Hcleanup. split_and!; [done..|]. lia.
Qed.

Lemma bar_reachable_debounced (st : SearchBar) :
  bar_reachable st → debounced (bar_cleanup st) (bar_timers st).
Proof.
  induction 1 as [handle now | st st' _ IH Hstep]; [by left|].
  by eapply bar_step_debounced.
Qed.

(** C4, as the code has it.  In every state the search page or the search
    bar can reach, at most one search timeout is pending.  An input change
    cancels the timeout that was pending; when the new query is empty or
    only white space it schedules none, clears the suggestions and ends
    searching; otherwise it marks searching and schedules one search of the
    new query, due 800 ms later -- in the search bar only when the Places
    services are ready: before that, it schedules nothing there. *)
Theorem input_change_debounces_search `{!MathObject}
    (GOOGLE_MAPS_API_KEY : JS.str) :
  (∀ (st : SearchPage) (value : JS.str),
     page_reachable GOOGLE_MAPS_API_KEY st →
     let st' := handleInputChange value st in
     length (pending (page_timers st)) ≤ 1 ∧
     (∀ p, p ∈ pending (page_timers st) → p ∉ pending (page_timers st')) ∧
     (JS.trim value = [] →
        pending (page_timers st') = [] ∧
        page_suggestions st' = [] ∧ page_isSearching st' = false) ∧
     (JS.trim value ≠ [] →
        pending (page_timers st') =
          [mkTimeout (next_handle (page_timers st))
             (clock (page_timers st) + 800) value] ∧
        page_isSearching st' = true)) ∧
  (∀ (st : SearchBar) (value : JS.str),
     bar_reachable st →
     value ≠ bar_query st →
     let st' := bar_handleInputChange value st in
     length (pending (bar_timers st)) ≤ 1 ∧
     (∀ p, p ∈ pending (bar_timers st) → p ∉ pending (bar_timers st')) ∧
     (JS.trim value = [] →
        pending (bar_timers st') = [] ∧
        bar_suggestions st' = [] ∧ bar_isSearching st' = false) ∧
     (JS.trim value ≠ [] → bar_isReady st = true →
        pending (bar_timers st') =
          [mkTimeout (next_handle (bar_timers st))
             (clock (bar_timers st) + 800) value] ∧
        bar_isSearching st' = true) ∧
     (JS.trim value ≠ [] → bar_isReady st = false →
        pending (bar_timers st') = [])).
Proof.
  split.
  - intros st value Hreach st'.
    apply page_reachable_debounced in Hreach as Hinv.
    destruct (handleInputChange_timers value st Hinv) as (Hblank & Hquery & _).
    fold st' in Hblank, Hquery.
    split_and!; [by eapply debounced_length | | done | done].
    intros p Hp. destruct (JS.trim value) as [|c s] eqn:Htrim.
    + destruct Hblank as [-> _]; [done|]. apply not_elem_of_nil.
    + destruct Hquery as [-> _]; [done|]. by eapply debounced_cancelled.
  - intros st value Hreach Hchange st'.
    apply bar_reachable_debounced in Hreach as Hinv.
    subst st'. unfold bar_handleInputChange.
    rewrite bool_decide_eq_false_2 by done.
    set (st1 := mkSearchBar value _ _ _ _ _ _).
    destruct (searchEffect_rerun_timers st1 Hinv)
      as (Hblank & Hready & Hwait & _).
    change (bar_query st1) with value in Hblank, Hready, Hwait.
    change (bar_isReady st1) with (bar_isReady st) in Hready, Hwait.
    change (bar_timers st1) with (bar_timers st) in Hready.
    split_and!; [by eapply debounced_length | | done | done | ].
    + intros p Hp. destruct (decide (JS.trim value = [])) as [Htrim | Htrim].
      * destruct (Hblank Htrim) as [-> _]. apply not_elem_of_nil.
      * destruct (bar_isReady st) eqn:Hr.
        -- destruct (Hready Htrim eq_refl) as [-> _].
           by eapply debounced_cancelled.
        -- destruct (Hwait Htrim eq_refl) as [-> _]. apply not_elem_of_nil.
    + intros Htrim Hr. by destruct (Hwait Htrim Hr) as [-> _].
Qed.

Lemma input_change_debounces_search_witness :
  pending (page_timers (handleInputChange (JS.lit "cafe") (page_mounted 1 0))) =
    [mkTimeout 1 800 (JS.lit "cafe")] ∧
  pending (bar_timers (bar_handleInputChange (JS.lit "cafe") bar_ready)) =
    [mkTimeout 1 800 (JS.lit "cafe")].
Proof.
  destruct (input_change_debounces_search (H := antipodes_Math) (JS.lit "key"))
    as [Hpage Hbar].
  assert (JS.trim (JS.lit "cafe") ≠ []) as Htrim by (vm_compute; discriminate).
  split.
  - destruct (Hpage (page_mounted 1 0) (JS.lit "cafe")) as (_ & _ & _ & Hset).
    { constructor. }
    by destruct (Hset Htrim) as [-> _].
  - destruct (Hbar bar_ready (JS.lit "cafe")) as (_ & _ & _ & Hset & _).
    { eapply bar_reachable_step; [apply (bar_reachable_mounted 1 0)|].
      apply bar_dependency. }
    { vm_compute. discriminate. }
    by destruct (Hset Htrim eq_refl) as [-> _].
Defined.

(** C4 as stated fails in the search bar while the Places services are not
    ready: a change of the input to a query that is not blank schedules no
    search. *)
Lemma search_bar_not_ready_schedules_nothing :
  bar_reachable (bar_mounted 1 0) ∧
  JS.lit "cafe" ≠ bar_query (bar_mounted 1 0) ∧
  JS.trim (JS.lit "cafe") ≠ [] ∧
  pending (bar_timers (bar_handleInputChange (JS.lit "cafe") (bar_mounted 1 0)))
    = [].
Proof.
  split_and!; [constructor | vm_compute; discriminate
              | vm_compute; discriminate | reflexivity].
Qed.

(** [trim] strips white space at both ends; an ideographic space alone is
    a blank query. *)
Lemma trim_examples :
  JS.trim (JS.lit "  cafe bar ") = JS.lit "cafe bar" ∧
  JS.trim [0x3000%N] = [] ∧
  JS.trim [0x3000; 0x30AB; 0x30D5; 0x30A7; 0x0020]%N = [0x30AB; 0x30D5; 0x30A7]%N.
Proof. split_and!; reflexivity. Qed.

(* ===================================================================== *)
(** * Further properties *)
(* ===================================================================== *)

(** ** Lists searched by a key *)

Section KeyedLists.
Context {A K : Type} `{EqDecision K} (key : A → K).

Lemma filter_length_all (P : A → Prop) `{∀ x, Decision (P x)} (l : list A) :
  length (filter P l) = length l → filter P l = l.
Proof.
  induction l as [|x l IH]; [done|]. rewrite filter_cons.
  destruct (decide (P x)); simpl; intros Hlen.
  - f_equal. apply IH. lia.
  - pose proof (length_filter P l). lia.
Qed.

Lemma filter_length_all_inv (P : A → Prop) `{∀ x, Decision (P x)}
    (l : list A) :
  length (filter P l) = length l → Forall P l.
Proof.
  intros Hlen. apply filter_length_all in Hlen. rewrite <- Hlen.
  apply Forall_forall. intros x Hx. by apply list_elem_of_filter in Hx as [? _].
Qed.

(** Looking up a key among the elements that have another key. *)
Lemma find_key_filter_other (k k' : K) (l : list A) :
  k' ≠ k →
  snd <$> list_find (λ x, key x = k') (filter (λ x, key x ≠ k) l) =
  snd <$> list_find (λ x, key x = k') l.
Proof.
  intros Hne. induction l as [|x l IH]; [done|].
  rewrite filter_cons. destruct (decide (key x ≠ k)) as [Hx | Hx]; simpl.
  - destruct (decide (key x = k')); [done|].
    destruct (list_find _ (filter _ l)) as [[i y]|],
      (list_find _ l) as [[j z]|]; simpl in *; congruence.
  - apply dec_stable in Hx.
    rewrite decide_False by congruence.
    rewrite IH. by destruct (list_find _ l) as [[j z]|].
Qed.

Lemma find_key_filter_same (k : K) (l : list A) :
  list_find (λ x, key x = k) (filter (λ x, key x ≠ k) l) = None.
Proof.
  apply list_find_None, Forall_forall. intros x Hx.
  by apply list_elem_of_filter in Hx as [? _].
Qed.

(** Replacing the first element that has a key by one with the same key
    moves no element: every key is found where it was. *)
Lemma find_key_insert (k k' : K) (l : list A) (i : nat) (x y : A) :
  list_find (λ x, key x = k) l = Some (i, x) →
  key y = k →
  list_find (λ x, key x = k') (<[i := y]> l) =
    if decide (k' = k) then Some (i, y)
    else list_find (λ x, key x = k') l.
Proof.
  revert i. induction l as [|z l IH]; intros i Hfind Hy; [done|].
  simpl in Hfind. destruct (decide (key z = k)) as [Hz | Hz].
  - injection Hfind as <- <-. simpl.
    destruct (decide (k' = k)) as [-> | Hne].
    + by rewrite decide_True.
    + rewrite decide_False by congruence. by rewrite decide_False by congruence.
  - destruct (list_find _ l) as [[j u]|] eqn:Hl; [|done].
    injection Hfind as <- <-. simpl.
    rewrite (IH j eq_refl Hy).
    destruct (decide (k' = k)) as [-> | Hne].
    + by rewrite decide_False.
    + done.
Qed.

End KeyedLists.

(** ** lib/storage.ts: places *)

Lemma getPlaces_setItem (v : list Place) (w : world) :
  getPlaces (setItem_PLACES v w) = v.
Proof. done. Qed.

(** X1.  After [savePlace], [getPlaceById] finds every place it found
    before, unchanged, and finds the new place under its id unless an older
    place already has that id, which then still comes first. *)
Theorem savePlace_then_getPlaceById (uuid now : JS.str) (place : PlaceInput)
    (w : world) (id : JS.str) :
  getPlaceById id (snd (savePlace uuid now place w)) =
    match getPlaceById id w with
    | Some p => Some p
    | None =>
        if decide (id = uuid) then Some (fst (savePlace uuid now place w))
        else None
    end.
Proof.
  unfold getPlaceById.
  change (getPlaces (snd (savePlace uuid now place w)))
    with (getPlaces w ++ [fst (savePlace uuid now place w)]).
  set (new := fst (savePlace uuid now place w)).
  assert (place_id new = uuid) as Hid by done. clearbody new.
  destruct (list_find _ (getPlaces w)) as [[i p]|] eqn:Hold; simpl.
  - by rewrite (list_find_app_l _ _ _ _ _ Hold).
  - rewrite list_find_app_r by done. simpl. rewrite Hid.
    destruct (decide (uuid = id)) as [-> | Hne].
    + by rewrite decide_True.
    + by rewrite decide_False by congruence.
Qed.

(** X2.  [deletePlace(id)] returns true exactly when some stored place has
    the id; it stores the other places in their order, so that afterwards
    no place is found under the id and every other id is found as before;
    when it returns false it writes nothing. *)
Theorem deletePlace_removes_id (id : JS.str) (w : world) :
  let result := deletePlace id w in
  getPlaces (snd result) = filter (λ p, place_id p ≠ id) (getPlaces w) ∧
  fst result = bool_decide (id ∈ place_id <$> getPlaces w) ∧
  (fst result = true ∨ snd result = w) ∧
  (∀ id', getPlaceById id' (snd result) =
          if decide (id' = id) then None else getPlaceById id' w) ∧
  kokomemo_tabs (storage (snd result)) = kokomemo_tabs (storage w) ∧
  kokomemo_search_history (storage (snd result)) =
    kokomemo_search_history (storage w) ∧
  kokomemo_settings (storage (snd result)) = kokomemo_settings (storage w).
Proof.
  intros result.
  assert (getPlaces (snd result) =
            filter (λ p, place_id p ≠ id) (getPlaces w)) as Hstored.
  { subst result. unfold deletePlace. case_bool_decide as Hlen; simpl.
    - symmetry. by apply filter_length_all.
    - done. }
  split_and!.
  - exact Hstored.
  - subst result. unfold deletePlace. case_bool_decide as Hlen; simpl.
    + symmetry. apply bool_decide_eq_false. intros Hin.
      apply list_elem_of_fmap in Hin as (p & -> & Hp).
      apply filter_length_all_inv in Hlen.
      rewrite Forall_forall in Hlen. by apply (Hlen p Hp).
    + symmetry. apply bool_decide_eq_true.
      destruct (decide (id ∈ place_id <$> getPlaces w)) as [|Hnot]; [done|].
      exfalso. apply Hlen. f_equal.
      apply filter_length_all. f_equal. clear Hlen Hstored.
      induction (getPlaces w) as [|p l IH]; [done|].
      rewrite filter_cons_True.
      * f_equal. apply IH. intros Hin. apply Hnot. by right.
      * intros Heq. apply Hnot. rewrite <- Heq. by left.
  - subst result. unfold deletePlace. case_bool_decide; simpl; auto.
  - intros id'. unfold getPlaceById at 1. rewrite Hstored.
    destruct (decide (id' = id)) as [-> | Hne].
    + by rewrite (find_key_filter_same place_id).
    + by apply (find_key_filter_other place_id).
  - subst result. unfold deletePlace. by case_bool_decide.
  - subst result. unfold deletePlace. by case_bool_decide.
  - subst result. unfold deletePlace. by case_bool_decide.
Qed.

(** X3.  [updatePlace(id, updates)] returns null and writes nothing when no
    stored place has the id.  Otherwise it replaces the first place with
    that id by that place with the updates applied and [updatedAt] set to
    now, and returns it: the place keeps its id, its [createdAt] and its
    position, every other id is found as before, and no other key
    changes. *)
Theorem updatePlace_replaces_in_place (now id : JS.str)
    (updates : PlaceUpdates) (w : world) :
  let result := updatePlace now id updates w in
  match getPlaceById id w with
  | None => result = (None, w)
  | Some place =>
      fst result = Some (spread_updates place updates now) ∧
      (∀ id', getPlaceById id' (snd result) =
              if decide (id' = id) then fst result
              else getPlaceById id' w) ∧
      place_id <$> getPlaces (snd result) = place_id <$> getPlaces w ∧
      place_createdAt <$> getPlaces (snd result) =
        place_createdAt <$> getPlaces w ∧
      length (getPlaces (snd result)) = length (getPlaces w) ∧
      kokomemo_tabs (storage (snd result)) = kokomemo_tabs (storage w) ∧
      kokomemo_search_history (storage (snd result)) =
        kokomemo_search_history (storage w) ∧
      kokomemo_settings (storage (snd result)) = kokomemo_settings (storage w)
  end.
Proof.
  intros result. subst result. unfold updatePlace, getPlaceById.
  destruct (list_find _ (getPlaces w)) as [[index place]|] eqn:Hfind;
    cbn [fmap option_fmap option_map fst snd]; [|done].
  apply list_find_Some in Hfind as Hspec. destruct Hspec as (Hlookup & Hid & _).
  rewrite !getPlaces_setItem.
  split_and!; try done.
  - intros id'.
    rewrite (find_key_insert place_id id id' _ _ _ _ Hfind) by done.
    by destruct (decide (id' = id)).
  - rewrite list_fmap_insert. apply list_insert_id.
    rewrite list_lookup_fmap, Hlookup. done.
  - rewrite list_fmap_insert. apply list_insert_id.
    rewrite list_lookup_fmap, Hlookup. done.
  - apply length_insert.
Qed.

(** ** lib/storage.ts: tabs *)

(** What [getTabs] leaves behind: the tabs it returns are the stored ones,
    there is at least one, every element of [DEFAULT_TABS] has its id among
    them, and nothing but the tabs key was written. *)
Lemma getTabs_stored (w : world) :
  let '(tabs, w1) := getTabs w in
  kokomemo_tabs (storage w1) = Some (Encoded (elements tabs w1)) ∧
  elements tabs w1 ≠ [] ∧
  Forall (λ d, tab_id d ∈ tab_id <$> elements tabs w1) (DEFAULT_TABS w1) ∧
  DEFAULT_TABS_pushed w1 = DEFAULT_TABS_pushed w ∧
  kokomemo_places (storage w1) = kokomemo_places (storage w) ∧
  kokomemo_search_history (storage w1) = kokomemo_search_history (storage w) ∧
  kokomemo_settings (storage w1) = kokomemo_settings (storage w).
Proof.
  pose proof (getTabs_nonempty w) as Hne. unfold getTabs in *.
  destruct (safeJsonParse (kokomemo_tabs (storage w)) []) as [|t ts] eqn:Hs.
  - rewrite bool_decide_eq_true_2 by done.
    split_and!; try done.
    apply Forall_forall. intros d Hd. by apply list_elem_of_fmap_2.
  - rewrite bool_decide_eq_false_2 in Hne |- * by done.
    set (stored := t :: ts) in *.
    set (missing := filter _ (DEFAULT_TABS w)) in *.
    case_bool_decide as Hmissing.
    + split_and!; try done.
      apply Forall_forall. intros d Hd. cbn [elements].
      rewrite sort_Permutation, fmap_app, elem_of_app.
      destruct (decide (tab_id d ∈ tab_id <$> stored)) as [|Hnot]; [by left|].
      right. apply list_elem_of_fmap_2. apply list_elem_of_filter. split; [|done].
      by rewrite elem_of_list_to_set.
    + assert (missing = []) as Hnil by (destruct missing; simpl in *; [done|lia]).
      split_and!; try done.
      * destruct (kokomemo_tabs (storage w)) as [[| |v]|]; try done.
        cbn in Hs. by subst v.
      * apply Forall_forall. intros d Hd. cbn [elements].
        destruct (decide (tab_id d ∈ tab_id <$> stored)) as [|Hnot]; [done|].
        exfalso. eapply (filter_nil_not_elem_of _ _ d Hnil); [|done].
        by rewrite elem_of_list_to_set.
Qed.

(** X4.  A second [getTabs()] right after a first one writes nothing and
    returns the same tabs; and the tabs that [getTabs()] returns always
    include a tab for the id of every default tab. *)
Theorem getTabs_settles (w : world) :
  let '(tabs, w1) := getTabs w in
  getTabs w1 = (FreshArray (elements tabs w1), w1) ∧
  Forall (λ d, tab_id d ∈ tab_id <$> elements tabs w1) DEFAULT_TABS_literal.
Proof.
  pose proof (getTabs_stored w) as Hstored.
  destruct (getTabs w) as [tabs w1].
  destruct Hstored as (Hkey & Hne & Hall & _). split.
  - by apply getTabs_reads_only.
  - unfold DEFAULT_TABS in Hall. by apply Forall_app in Hall as [Hall _].
Qed.

(** On a stored, non-empty tab list [getTabs()] returns the stored tabs and
    the elements of [DEFAULT_TABS] whose id is missing from them. *)
Lemma getTabs_Permutation (w : world) (ts : list Tab) :
  kokomemo_tabs (storage w) = Some (Encoded ts) →
  ts ≠ [] →
  elements (fst (getTabs w)) (snd (getTabs w)) ≡ₚ
    ts ++ filter (λ d, tab_id d ∉ tab_id <$> ts) (DEFAULT_TABS w) ∧
  DEFAULT_TABS (snd (getTabs w)) = DEFAULT_TABS w.
Proof.
  intros Hkey Hne. unfold getTabs.
  rewrite Hkey, safeJsonParse_Encoded.
  rewrite bool_decide_eq_false_2 by (by destruct ts).
  rewrite (filter_not_in_set tab_id tab_id).
  set (missing := filter _ (DEFAULT_TABS w)).
  case_bool_decide as Hmissing; cbn [fst snd elements].
  - split; [apply sort_Permutation | done].
  - assert (missing = []) as -> by (destruct missing; simpl in *; [done|lia]).
    by rewrite app_nil_r.
Qed.

(** X5.  On a stored, non-empty tab list [getTabs()] returns the stored
    tabs together with the elements of the [DEFAULT_TABS] array whose id is
    missing from them, and loses none; that array holds the nine default
    tabs and the custom tabs that [addCustomTab] pushed onto it while no
    tab list was stored.  When no element of the array is missing,
    [getTabs()] returns the stored list as it is and writes nothing;
    otherwise it returns, and stores, the whole list sorted by [order]. *)
Theorem getTabs_merges_missing_defaults (w : world) (ts : list Tab) :
  kokomemo_tabs (storage w) = Some (Encoded ts) →
  ts ≠ [] →
  let missing := filter (λ d, tab_id d ∉ tab_id <$> ts) (DEFAULT_TABS w) in
  let returned := elements (fst (getTabs w)) (snd (getTabs w)) in
  returned ≡ₚ ts ++ missing ∧
  (missing = [] → returned = ts ∧ snd (getTabs w) = w) ∧
  (missing ≠ [] →
     StronglySorted (λ a b, tab_order a ≤ tab_order b)%Z returned ∧
     kokomemo_tabs (storage (snd (getTabs w))) = Some (Encoded returned)).
Proof.
  intros Hkey Hne missing returned. subst returned. unfold getTabs.
  rewrite Hkey, safeJsonParse_Encoded.
  rewrite bool_decide_eq_false_2 by (by destruct ts).
  rewrite (filter_not_in_set tab_id tab_id). fold missing.
  case_bool_decide as Hmissing; cbn [fst snd elements].
  - split_and!.
    + apply sort_Permutation.
    + intros Hnil. rewrite Hnil in Hmissing. simpl in Hmissing. lia.
    + intros _. split; [|done].
      apply sort_StronglySorted.
      * intros a b c. lia.
      * intros a b Hgt. apply bool_decide_eq_false in Hgt. lia.
      * intros a b Hgt. apply bool_decide_eq_true in Hgt. lia.
  - assert (missing = []) as -> by (destruct missing; simpl in *; [done|lia]).
    split_and!; [by rewrite app_nil_r | done | done].
Qed.

Lemma getTabs_merges_missing_defaults_witness :
  kokomemo_tabs (storage upgraded_store) =
    Some (Encoded (take 8 DEFAULT_TABS_literal ++ five_custom_tabs)) ∧
  StronglySorted (λ a b, tab_order a ≤ tab_order b)%Z
    (elements (fst (getTabs upgraded_store)) (snd (getTabs upgraded_store))) ∧
  snd (getTabs full_store) = full_store.
Proof.
  destruct (getTabs_merges_missing_defaults upgraded_store
              (take 8 DEFAULT_TABS_literal ++ five_custom_tabs) eq_refl
              ltac:(discriminate)) as (_ & _ & Hsorted).
  destruct (getTabs_merges_missing_defaults full_store
              (DEFAULT_TABS_literal ++ five_custom_tabs) eq_refl
              ltac:(discriminate)) as (_ & Hsame & _).
  split_and!; [reflexivity | | ].
  - apply Hsorted. vm_compute. discriminate.
  - apply Hsame. vm_compute. reflexivity.
Defined.

(** The tab list stored by [addCustomTab]. *)
Lemma addCustomTab_stored (uuid name : JS.str) (w w1 : world)
    (tabs : tabs_array) :
  getTabs w = (tabs, w1) →
  let existing := elements tabs w1 in
  let w2 := snd (addCustomTab uuid name w) in
  let stored :=
    if bool_decide (5 ≤ length (filter (λ t, tab_isCustom t) existing)) then
      existing
    else
      existing ++
        [mkTab uuid name true (Math_max (tab_order <$> existing) + 1)] in
  kokomemo_tabs (storage w2) = Some (Encoded stored) ∧
  getTabs w2 = (FreshArray stored, w2).
Proof.
  intros Hget existing w2 stored.
  pose proof (getTabs_stored w) as Hstored. rewrite Hget in Hstored.
  destruct Hstored as (Hkey & Hne & Hall & _). fold existing in Hkey, Hne, Hall.
  assert (kokomemo_tabs (storage w2) = Some (Encoded stored) ∧
          Forall (λ d, tab_id d ∈ tab_id <$> stored) (DEFAULT_TABS w2))
    as [Hkey2 Hall2].
  { subst w2 stored. unfold addCustomTab. rewrite Hget. fold existing.
    case_bool_decide; [done|].
    set (newTab := mkTab _ _ _ _).
    destruct tabs as [|elems]; cbn [push snd setItem_TABS storage kokomemo_tabs
                                     elements].
    - unfold existing, DEFAULT_TABS. cbn [elements DEFAULT_TABS_pushed].
      rewrite app_assoc. split; [done|].
      apply Forall_forall. intros d Hd. by apply list_elem_of_fmap_2.
    - split; [done|]. eapply Forall_impl; [exact Hall|].
      intros d Hd. rewrite fmap_app. apply elem_of_app. by left. }
  split; [exact Hkey2|].
  apply getTabs_reads_only; [exact Hkey2 | | exact Hall2].
  subst stored. case_bool_decide; [done|]. by destruct existing.
Qed.

(** X6.  [addCustomTab] never takes the number of custom tabs beyond five:
    the tabs stored after the call, which are the tabs the next [getTabs()]
    returns, hold at most five custom tabs, or as many as [getTabs()]
    returned before the call if those were already more. *)
Theorem addCustomTab_keeps_the_limit (uuid name : JS.str) (w : world) :
  let custom (l : list Tab) := length (filter (λ t, tab_isCustom t) l) in
  let before := elements (fst (getTabs w)) (snd (getTabs w)) in
  let w2 := snd (addCustomTab uuid name w) in
  let after := elements (fst (getTabs w2)) (snd (getTabs w2)) in
  kokomemo_tabs (storage w2) = Some (Encoded after) ∧
  custom after ≤ Nat.max 5 (custom before) ∧
  custom before ≤ custom after ≤ S (custom before).
Proof.
  intros custom before w2 after.
  destruct (getTabs w) as [tabs w1] eqn:Hget.
  destruct (addCustomTab_stored uuid name w w1 tabs Hget) as [Hkey Hnext].
  subst after. fold w2 in Hkey, Hnext. rewrite Hnext. cbn [fst snd elements].
  subst before. cbn [fst snd].
  split; [exact Hkey|].
  subst custom. cbv beta. case_bool_decide as Hfull.
  - lia.
  - rewrite filter_app, length_app. simpl. lia.
Qed.

(** Replacing an element outside a filter by another one outside it leaves
    the filtered list as it was. *)
Lemma filter_insert_outside {A} (P : A → Prop) `{∀ x, Decision (P x)}
    (l : list A) (i : nat) (x y : A) :
  l !! i = Some x → ¬ P x → ¬ P y → filter P (<[i := y]> l) = filter P l.
Proof.
  revert i. induction l as [|z l IH]; intros [|i] Hi Hx Hy; try done; simpl in *.
  - injection Hi as ->. by rewrite !filter_cons_False.
  - rewrite !filter_cons. rewrite (IH i Hi Hx Hy). done.
Qed.

(** A custom tab of [DEFAULT_TABS] lies behind the literal. *)
Lemma custom_tab_behind_literal (w : world) (index : nat) (tab : Tab) :
  DEFAULT_TABS w !! index = Some tab → tab_isCustom tab →
  length DEFAULT_TABS_literal ≤ index.
Proof.
  intros Hlookup Hcustom.
  destruct (decide (index < length DEFAULT_TABS_literal)) as [Hlt|]; [|lia].
  unfold DEFAULT_TABS in Hlookup. rewrite lookup_app_l in Hlookup by done.
  exfalso. revert Hlookup Hcustom. clear.
  do 9 (destruct index as [|index]; [intros [= <-]; done|]).
  done.
Qed.

Lemma assign_elements (a : tabs_array) (index : nat) (old x : Tab) (w : world) :
  elements a w !! index = Some old → tab_isCustom old →
  elements (fst (assign a index x w)) (snd (assign a index x w)) =
    <[index := x]> (elements a w) ∧
  storage (snd (assign a index x w)) = storage w.
Proof.
  intros Hlookup Hcustom. destruct a as [|elems]; [|done].
  pose proof (custom_tab_behind_literal w index old Hlookup Hcustom) as Hge.
  cbn [assign fst snd elements storage]. unfold DEFAULT_TABS.
  cbn [DEFAULT_TABS_pushed]. rewrite bool_decide_eq_true_2 by done.
  split; [|done]. by rewrite insert_app_r_alt.
Qed.

(** X7.  [updateTab(id, name)] renames the first custom tab with the id,
    where it stands, and returns it; no id, order or custom flag changes,
    and the default tabs stay as they are.  When no custom tab has the id,
    a default tab's id included, it returns null and writes nothing beyond
    what [getTabs()] did. *)
Theorem updateTab_renames_custom_only (id name : JS.str) (w : world) :
  let w1 := snd (getTabs w) in
  let existing := elements (fst (getTabs w)) w1 in
  let result := updateTab id name w in
  match list_find (λ t, tab_id t = id ∧ tab_isCustom t) existing with
  | None => result = (None, w1)
  | Some (index, tab) =>
      let renamed := mkTab id name true (tab_order tab) in
      fst result = Some renamed ∧
      kokomemo_tabs (storage (snd result)) =
        Some (Encoded (<[index := renamed]> existing)) ∧
      tab_id <$> <[index := renamed]> existing = tab_id <$> existing ∧
      tab_order <$> <[index := renamed]> existing = tab_order <$> existing ∧
      tab_isCustom <$> <[index := renamed]> existing =
        tab_isCustom <$> existing ∧
      filter (λ t, ¬ tab_isCustom t) (<[index := renamed]> existing) =
        filter (λ t, ¬ tab_isCustom t) existing
  end.
Proof.
  intros w1 existing result. subst result. unfold updateTab.
  subst existing w1. destruct (getTabs w) as [tabs w1]. cbn [fst snd].
  destruct (list_find _ (elements tabs w1)) as [[index tab]|] eqn:Hfind;
    [|done].
  apply list_find_Some in Hfind as (Hlookup & [Hid Hcustom] & _).
  set (renamed := mkTab (tab_id tab) name (tab_isCustom tab) (tab_order tab)).
  assert (renamed = mkTab id name true (tab_order tab)) as Hrenamed.
  { unfold renamed. rewrite Hid. by destruct (tab_isCustom tab). }
  destruct (assign_elements tabs index tab renamed w1 Hlookup Hcustom)
    as [Helems Hstorage].
  destruct (assign tabs index renamed w1) as [tabs2 w2].
  cbn [fst snd] in *. rewrite Helems, <- Hrenamed.
  assert (index < length (elements tabs w1)) as Hlt
    by (by eapply lookup_lt_Some).
  split_and!.
  - by rewrite list_lookup_insert_eq.
  - done.
  - rewrite list_fmap_insert. apply list_insert_id.
    by rewrite list_lookup_fmap, Hlookup.
  - rewrite list_fmap_insert. apply list_insert_id.
    by rewrite list_lookup_fmap, Hlookup.
  - rewrite list_fmap_insert. apply list_insert_id.
    by rewrite list_lookup_fmap, Hlookup.
  - eapply filter_insert_outside; [exact Hlookup | by intros [] | ].
    unfold renamed. simpl. by intros [].
Qed.

Lemma imap_Forall2 {A B} (f : nat → A → B) (R : A → B → Prop) (l : list A) :
  (∀ i x, R x (f i x)) → Forall2 R l (imap f l).
Proof.
  revert f. induction l as [|x l IH]; intros f Hf; simpl; constructor.
  - apply Hf.
  - apply IH. intros i y. apply Hf.
Qed.

(** X8.  [deleteTab(id)] deletes custom tabs only: when the first tab with
    the id is a default tab, or no tab has the id, it returns false and
    writes nothing beyond what [getTabs()] did.  Otherwise it returns
    true, stores the tabs with another id in their order, keeps every
    place, and moves the places of the deleted tab to the tab
    ['frequent']. *)
Theorem deleteTab_custom_only (now : nat → JS.str) (id : JS.str) (w : world) :
  let w1 := snd (getTabs w) in
  let existing := elements (fst (getTabs w)) w1 in
  let result := deleteTab now id w in
  match snd <$> list_find (λ t, tab_id t = id) existing with
  | None => result = (false, w1)
  | Some tab =>
      if tab_isCustom tab then
        fst result = true ∧
        kokomemo_tabs (storage (snd result)) =
          Some (Encoded (filter (λ t, tab_id t ≠ id) existing)) ∧
        Forall2 (moved_to_frequent id) (getPlaces w) (getPlaces (snd result)) ∧
        Forall (λ p, place_tabId p ≠ id ∨ id = JS.lit "frequent")
          (getPlaces (snd result))
      else result = (false, w1)
  end.
Proof.
  intros w1 existing result. subst result. unfold deleteTab.
  pose proof (getTabs_stored w) as Hstored.
  subst existing w1. destruct (getTabs w) as [tabs w1]. cbn [fst snd].
  destruct Hstored as (_ & _ & _ & _ & Hplaces & _).
  destruct (snd <$> list_find _ (elements tabs w1)) as [tab|]; [|done].
  destruct (tab_isCustom tab); cbn [negb]; [|done].
  cbn [fst snd]. rewrite getPlaces_setItem.
  assert (getPlaces (setItem_TABS (filter (λ t, tab_id t ≠ id)
                                     (elements tabs w1)) w1) = getPlaces w)
    as -> by (unfold getPlaces; cbn; by rewrite Hplaces).
  split_and!; [done | done | |].
  - apply imap_Forall2. intros i p. unfold moved_to_frequent.
    case_bool_decide; [by rewrite decide_True | by rewrite decide_False].
  - apply Forall_forall. intros p' Hp'.
    apply elem_of_lookup_imap_1 in Hp' as (i & p & -> & _).
    case_bool_decide as Htab; simpl.
    + destruct (decide (id = JS.lit "frequent")); [by right | left; congruence].
    + by left.
Qed.

(** X9.  A custom tab that was added on an empty tab store does not stay
    deleted.  When nothing readable is stored under the tabs key,
    [getTabs()] hands out the [DEFAULT_TABS] array itself and
    [addCustomTab] pushes the new tab onto it; a later [deleteTab] of that
    tab returns true and removes it from the store, but the next
    [getTabs()] takes it for a missing default tab and puts it back. *)
Theorem deleted_tab_comes_back (now : nat → JS.str) (uuid name : JS.str)
    (w : world) :
  unreadable (kokomemo_tabs (storage w)) ∨
    kokomemo_tabs (storage w) = Some (Encoded []) →
  length (filter (λ t, tab_isCustom t) (DEFAULT_TABS w)) < 5 →
  uuid ∉ tab_id <$> DEFAULT_TABS w →
  let added := addCustomTab uuid name w in
  let deleted := deleteTab now uuid (snd added) in
  let next := getTabs (snd deleted) in
  (∃ newTab, fst added = Some newTab ∧ tab_id newTab = uuid ∧
             newTab ∈ elements (fst next) (snd next)) ∧
  fst deleted = true ∧
  kokomemo_tabs (storage (snd deleted)) = Some (Encoded (DEFAULT_TABS w)).
Proof.
  intros Hempty Hroom Hfresh added deleted next.
  assert (getTabs w = (TheDefaultTabs, setItem_TABS (DEFAULT_TABS w) w))
    as Hget.
  { unfold getTabs.
    assert (safeJsonParse (kokomemo_tabs (storage w)) [] = []) as ->
      by (destruct Hempty as [H | ->]; [by apply safeJsonParse_unreadable|done]).
    done. }
  set (newTab := mkTab uuid name true
                   (Math_max (tab_order <$> DEFAULT_TABS w) + 1)).
  set (w1 := setItem_TABS (DEFAULT_TABS w ++ [newTab])
               (mkWorld (storage w) (DEFAULT_TABS_pushed w ++ [newTab]))).
  assert (added = (Some newTab, w1)) as Hadded.
  { subst added. unfold addCustomTab. rewrite Hget.
    cbn [elements]. change (DEFAULT_TABS (setItem_TABS _ w)) with (DEFAULT_TABS w).
    rewrite bool_decide_eq_false_2 by lia.
    cbn [push elements]. fold newTab. unfold w1, setItem_TABS, DEFAULT_TABS.
    cbn [storage DEFAULT_TABS_pushed kokomemo_places kokomemo_tabs
         kokomemo_search_history kokomemo_settings].
    by rewrite app_assoc. }
  assert (DEFAULT_TABS w1 = DEFAULT_TABS w ++ [newTab]) as Hdefaults
    by (unfold DEFAULT_TABS, w1, setItem_TABS; cbn [DEFAULT_TABS_pushed];
        by rewrite app_assoc).
  assert (getTabs w1 = (FreshArray (DEFAULT_TABS w ++ [newTab]), w1)) as Hget1.
  { apply getTabs_reads_only; [done | by destruct (DEFAULT_TABS w) |].
    rewrite Hdefaults. apply Forall_forall. intros d Hd.
    by apply list_elem_of_fmap_2. }
  assert (list_find (λ t, tab_id t = uuid) (DEFAULT_TABS w) = None) as Hnone.
  { apply list_find_None, Forall_forall. intros t Ht Hid. apply Hfresh.
    rewrite <- Hid. by apply list_elem_of_fmap_2. }
  assert (filter (λ t, tab_id t ≠ uuid) (DEFAULT_TABS w ++ [newTab]) =
            DEFAULT_TABS w) as Hfiltered.
  { rewrite filter_app, filter_cons_False by (by intros []).
    rewrite filter_nil, app_nil_r.
    apply filter_length_all. f_equal. clear -Hfresh.
    induction (DEFAULT_TABS w) as [|t l IH]; [done|].
    rewrite filter_cons_True.
    - f_equal. apply IH. intros Hin. apply Hfresh. by right.
    - intros Hid. apply Hfresh. rewrite <- Hid. by left. }
  set (w2 := snd deleted).
  assert (fst deleted = true ∧
          kokomemo_tabs (storage w2) = Some (Encoded (DEFAULT_TABS w)) ∧
          DEFAULT_TABS w2 = DEFAULT_TABS w ++ [newTab]) as (Htrue & Hkey2 & Hdef2).
  { subst w2 deleted. rewrite Hadded. cbn [snd]. unfold deleteTab.
    rewrite Hget1. cbn [elements].
    rewrite list_find_app_r by done. cbn [list_find].
    rewrite decide_True by done.
    cbn [fmap option_fmap option_map prod_map fst snd].
    change (tab_isCustom newTab) with true. cbn [negb fst snd].
    rewrite Hfiltered. split_and!; [done | done | exact Hdefaults]. }
  split_and!; [|done..].
  exists newTab. split_and!; [by rewrite Hadded | done |].
  subst next. fold w2.
  destruct (getTabs_Permutation w2 (DEFAULT_TABS w) Hkey2) as [Hperm _];
    [by destruct (DEFAULT_TABS w)|].
  rewrite Hperm, Hdef2. apply elem_of_app. right.
  apply list_elem_of_filter. split; [exact Hfresh|].
  apply elem_of_app. right. by left.
Qed.

Lemma deleted_tab_comes_back_witness :
  unreadable (kokomemo_tabs (storage first_launch)) ∧
  (JS.lit "uuid-1" ∉ tab_id <$> DEFAULT_TABS first_launch) ∧
  fst (deleteTab (λ _, JS.lit "2025-03-03T00:00:00.000Z") (JS.lit "uuid-1")
         (snd (addCustomTab (JS.lit "uuid-1") (JS.lit "gym") first_launch))) =
    true.
Proof.
  assert (unreadable (kokomemo_tabs (storage first_launch))) as Hempty
    by (by left).
  assert (JS.lit "uuid-1" ∉ (tab_id <$> DEFAULT_TABS first_launch))
    as Hfresh.
  { intros Hin. apply list_elem_of_In in Hin. vm_compute in Hin.
    intuition discriminate. }
  split_and!; [exact Hempty | exact Hfresh |].
  refine (proj1 (proj2
    (deleted_tab_comes_back (λ _, JS.lit "2025-03-03T00:00:00.000Z")
       (JS.lit "uuid-1") (JS.lit "gym") first_launch (or_introl Hempty) _
       Hfresh))).
  vm_compute. lia.
Defined.

(** ** Settings and navigation *)

(** X10.  The travel mode chosen in the settings is the one later
    navigation uses: after [updateSettings({ travelMode })], [getSettings]
    returns that mode and [handleNavigate] of the search page opens the
    route to the selected place with it; an update without a travel mode
    keeps the mode that was in force; [updateSettings] returns what
    [getSettings] returns afterwards; without a selected place nothing is
    opened. *)
Theorem stored_travel_mode_drives_navigation
    (Number_toString : number → JS.str) (st : SearchPage) (w : world)
    (opened : list window_open) (mode : TravelMode) :
  getSettings (snd (updateSettings (Some mode) w)) = mkAppSettings mode ∧
  getSettings (snd (updateSettings None w)) = getSettings w ∧
  (∀ updates, fst (updateSettings updates w) =
              getSettings (snd (updateSettings updates w))) ∧
  page_handleNavigate Number_toString st
    (snd (updateSettings (Some mode) w)) opened =
    match page_selectedPlace st with
    | None => opened
    | Some place =>
        opened ++
          [ mkOpen
              (JS.lit "https://www.google.com/maps/dir/?api=1&destination="
                 ++ Number_toString (result_latitude place) ++ JS.lit ","
                 ++ Number_toString (result_longitude place)
                 ++ JS.lit "&travelmode=" ++ travelMode_text mode)
              (JS.lit "_blank") ]
    end.
Proof.
  split_and!.
  - done.
  - unfold updateSettings, getSettings. cbn.
    by destruct (safeJsonParse _ _).
  - done.
  - unfold page_handleNavigate. by destruct (page_selectedPlace st).
Qed.

(** ** Search history shown by the search bar *)

(** X11.  After [addSearchHistory(query, placeId)] the history suggestions
    of the search bar start with that query and its placeId, followed by
    the first four older entries with another query text, in their order:
    at most five, most recent first. *)
Theorem latest_search_heads_history_suggestions (now query : JS.str)
    (placeId : option JS.str) (w : world) :
  let w' := addSearchHistory now query placeId w in
  bar_historySuggestions w' =
    mkBarSuggestion type_history query None placeId None ::
      ((λ h, mkBarSuggestion type_history (history_query h) None
               (history_placeId h) None)
         <$> take 4 (filter (λ h, history_query h ≠ query)
                       (getSearchHistory w))) ∧
  length (bar_historySuggestions w') ≤ 5 ∧
  bar_suggestion_text <$> bar_historySuggestions w' =
    take 5 (history_query <$> getSearchHistory w').
Proof.
  intros w'. unfold bar_historySuggestions. subst w'.
  rewrite addSearchHistory_stored.
  set (older := filter _ (getSearchHistory w)).
  assert (take 5 (mkSearchHistory query placeId now :: take 19 older) =
            mkSearchHistory query placeId now :: take 4 older) as ->.
  { cbn [take]. f_equal. rewrite take_take. f_equal. }
  split_and!.
  - done.
  - rewrite length_fmap. cbn [length]. rewrite length_take. lia.
  - rewrite <- list_fmap_compose.
    rewrite (fmap_cons history_query). cbn [take].
    rewrite fmap_cons. f_equal.
    rewrite !fmap_take. cbn [take]. f_equal. by rewrite take_take.
Qed.

(** ** Quick search *)

(** X12.  A quick search replaces whatever the user was typing: in every
    state the search page can reach, [handleQuickSearch(term)] leaves no
    debounced search pending, makes the term the query, empties the
    suggestion list and drops the selected place.  With an API key it
    starts the search for the term at once and marks searching as under
    way; without one it starts nothing and marks searching as finished. *)
Theorem quick_search_replaces_pending_search `{!MathObject}
    (key searchTerm : JS.str) (st : SearchPage) :
  page_reachable key st →
  let st' := handleQuickSearch key searchTerm st in
  pending (page_timers st') = [] ∧
  page_query st' = searchTerm ∧
  page_suggestions st' = [] ∧
  page_selectedPlace st' = None ∧
  (if JS.truthy key
   then page_running st' = page_running st ++ [searchTerm] ∧
        page_isSearching st' = true
   else page_running st' = page_running st ∧
        page_isSearching st' = false) ∧
  debounced (page_debounceRef st') (page_timers st').
Proof.
  intros Hreach. apply page_reachable_debounced in Hreach.
  pose proof (debounced_clear _ _ Hreach) as Hclear.
  unfold handleQuickSearch, executeSearch_start.
  destruct st as [query selectedPlace suggestions isSearching ref running t].
  cbn in Hclear |- *.
  destruct (JS.truthy key); cbn [negb].
  all: split_and!; try by destruct ref.
  all: left; by destruct ref.
Qed.

Lemma quick_search_replaces_pending_search_witness :
  let st := handleInputChange (JS.lit "cafe") (page_mounted 1 0) in
  pending (page_timers st) ≠ [] ∧
  pending (page_timers (handleQuickSearch (JS.lit "key") (JS.lit "station") st))
    = [] ∧
  page_isSearching (handleQuickSearch [] (JS.lit "station") st) = false.
Proof.
  assert (page_reachable (H := antipodes_Math) (JS.lit "key")
            (handleInputChange (JS.lit "cafe") (page_mounted 1 0))) as Hkey.
  { eapply page_reachable_step; [apply page_reachable_mounted|].
    apply page_input. }
  assert (page_reachable (H := antipodes_Math) []
            (handleInputChange (JS.lit "cafe") (page_mounted 1 0))) as Hnone.
  { eapply page_reachable_step; [apply page_reachable_mounted|].
    apply page_input. }
  split_and!; [by vm_compute | |].
  - exact (proj1
      (quick_search_replaces_pending_search (JS.lit "key") (JS.lit "station")
         _ Hkey)).
  - exact (proj2 (proj1 (proj2 (proj2 (proj2 (proj2
      (quick_search_replaces_pending_search [] (JS.lit "station")
         _ Hnone))))))).
Defined.

(** ** Location smoothing comes to rest *)

Lemma lerp_remaining (c t : Q) :
  (Qabs (t - (c + (t - c) * 0.15)) == 0.85 * Qabs (t - c))%Q.
Proof.
  assert (t - (c + (t - c) * 0.15) == 0.85 * (t - c))%Q as -> by ring.
  rewrite Qabs_Qmult. by rewrite (Qabs_pos 0.85).
Qed.

Lemma filter_other_frames (frame : positive) (l : list positive) :
  Forall (eq frame) l → filter (λ f, f ≠ frame) l = [].
Proof.
  induction 1 as [|f l <- _ IH]; [done|].
  by rewrite filter_cons_False by (by intros []).
Qed.

Lemma map_run_frames_rest (N : nat) (st : InteractiveMap) (c t : Location)
    (frame : positive) (l : list positive) :
  map_frames st = frame :: l → Forall (eq frame) l →
  map_smoothLocation st = Some c →
  map_targetLocationRef st = Some t →
  (Qabs (location_lat t - location_lat c) +
   Qabs (location_lng t - location_lng c)
   <= inject_Z (Z.of_nat N) * 0.000000015)%Q →
  ∃ n, n ≤ S N ∧
       map_smoothLocation (map_run_frames n st) = Some t ∧
       map_targetLocationRef (map_run_frames n st) = Some t ∧
       map_frames (map_run_frames n st) = [].
Proof.
  revert st c frame l.
  induction N as [|N IH]; intros st c frame l Hframes Hall Hc Ht Hfar.
  all: pose proof (lerp_remaining (location_lat c) (location_lat t)) as Hlat.
  all: pose proof (lerp_remaining (location_lng c) (location_lng t)) as Hlng.
  all: pose proof (Qabs_nonneg (location_lat t - location_lat c)) as Hlat0.
  all: pose proof (Qabs_nonneg (location_lng t - location_lng c)) as Hlng0.
  all: assert (map_run_frames 1 st = map_run_frame frame st) as Hone
         by (cbn [map_run_frames]; by rewrite Hframes).
  all: assert (∀ n, map_run_frames (S n) st =
                    map_run_frames n (map_run_frame frame st)) as Hmore
         by (intros n; cbn [map_run_frames]; by rewrite Hframes).
  all: unfold map_run_frame, animate in Hone, Hmore.
  all: cbn [map_targetLocationRef map_smoothLocation] in Hone, Hmore.
  all: rewrite Ht, Hc in Hone, Hmore.
  all: rewrite Hframes, (filter_cons_False _ frame) in Hone, Hmore
         by (by intros []).
  all: rewrite filter_other_frames in Hone, Hmore by done.
  all: destruct (Qlt_le_dec _ _) as [Hlt | Hge].
  all: try (exists 1; rewrite Hone; split_and!; [lia | done | done | done]).
  - exfalso. clear Hone Hmore.
    set (a := Qabs (location_lat t - location_lat c)) in *.
    set (b := Qabs (location_lng t - location_lng c)) in *.
    rewrite Hlat, Hlng in Hge. clearbody a b.
    change (inject_Z (Z.of_nat 0)) with 0%Q in Hfar. Lqa.lra.
  - match type of Hone with _ = ?s => set (st1 := s) in * end.
    destruct (IH st1
                (mkLocation
                   (location_lat c + (location_lat t - location_lat c) * 0.15)
                   (location_lng c + (location_lng t - location_lng c) * 0.15))
                (map_next_frame st) [])
      as (n & Hn & Hs & Htarget & Hf);
      [done | constructor | done | done
      | | exists (S n); rewrite Hmore; split_and!; [lia | done | done | done] ].
    cbn [location_lat location_lng].
    clear Hone Hmore IH. clearbody st1.
    set (a := Qabs (location_lat t - location_lat c)) in *.
    set (b := Qabs (location_lng t - location_lng c)) in *.
    rewrite Hlat, Hlng in Hge |- *. clearbody a b.
    rewrite Nat2Z.inj_succ, <- Z.add_1_r, inject_Z_plus in Hfar.
    change (inject_Z 1) with 1%Q in Hfar.
    set (k := inject_Z (Z.of_nat N)) in *. clearbody k. Lqa.lra.
Qed.

(** X14.  The smoothing animation comes to rest on the new location.  When
    [currentLocation] changes and no frame other than the remembered one is
    pending, the effect leaves at most one frame pending, and after
    finitely many frames the smoothed position is the new location itself,
    with no frame pending: the map does not animate forever. *)
Theorem smoothing_reaches_the_location (st : InteractiveMap)
    (currentLocation : Location) :
  map_currentLocation st = Some currentLocation →
  (∀ frame, frame ∈ map_frames st → map_animationFrameRef st = Some frame) →
  ∃ n,
    let st' := map_run_frames n (smoothingEffect st) in
    map_smoothLocation st' = Some currentLocation ∧
    map_targetLocationRef st' = Some currentLocation ∧
    map_frames st' = [].
Proof.
  intros Hcurrent Hpending. unfold smoothingEffect. rewrite Hcurrent.
  cbn [map_smoothLocation map_animationFrameRef].
  destruct (map_smoothLocation st) as [c|] eqn:Hc.
  - set (st1 := map_requestAnimationFrame _).
    assert (map_frames st1 = [map_next_frame st]) as Hframes.
    { unfold st1. destruct (map_animationFrameRef st) as [frame|] eqn:Href.
      - cbn. rewrite filter_other_frames; [done|].
        apply Forall_forall. intros f Hf. apply Hpending in Hf. congruence.
      - cbn. destruct (map_frames st) as [|f l]; [done|].
        by specialize (Hpending f (list_elem_of_here _ _)). }
    assert (map_smoothLocation st1 = Some c) as Hsmooth.
    { unfold st1. destruct (map_animationFrameRef st); by cbn. }
    assert (map_targetLocationRef st1 = Some currentLocation) as Htarget.
    { unfold st1. by destruct (map_animationFrameRef st). }
    clearbody st1.
    destruct (Qarchimedean
                ((Qabs (location_lat currentLocation - location_lat c) +
                  Qabs (location_lng currentLocation - location_lng c))
                 / 0.000000015)) as [p Hp].
    set (far := (Qabs (location_lat currentLocation - location_lat c) +
                 Qabs (location_lng currentLocation - location_lng c))%Q)
      in *.
    assert (far <= inject_Z (Z.pos p) * 0.000000015)%Q as Hfar.
    { assert (far == far / 0.000000015 * 0.000000015)%Q as -> by (by field).
      apply Qmult_le_compat_r; [|done]. by apply Qlt_le_weak. }
    destruct (map_run_frames_rest (Pos.to_nat p) st1 c currentLocation
                (map_next_frame st) [] Hframes (Forall_nil_2 _) Hsmooth Htarget)
      as (n & _ & Hs & Ht & Hf).
    + rewrite positive_nat_Z. exact Hfar.
    + by exists n.
  - destruct (map_frames st) as [|frame l] eqn:Hframes.
    + by exists 0.
    + destruct (map_run_frames_rest 0
                  (map_setSmoothLocation (Some currentLocation)
                     (mkInteractiveMap (map_currentLocation st) None
                        (Some currentLocation) (map_animationFrameRef st)
                        (map_heading st) (map_hasOrientationSensor st)
                        (map_absoluteSupported st) (map_frames st)
                        (map_next_frame st)))
                  currentLocation currentLocation frame l)
        as (n & _ & Hs & Ht & Hf); [done | | done | done | | ].
      * apply Forall_forall. intros f Hf.
        pose proof (Hpending frame (list_elem_of_here _ _)) as H1.
        pose proof (Hpending f (list_elem_of_further _ _ _ Hf)) as H2. congruence.
      * assert (∀ q : Q, Qabs (q - q) == 0)%Q as Hzero.
        { intros q. assert (q - q == 0)%Q as -> by ring. done. }
        rewrite !Hzero. done.
      * rewrite Hframes, Hcurrent in Hs, Ht, Hf. by exists n.
Qed.

Lemma smoothing_reaches_the_location_witness :
  ∃ n,
    map_smoothLocation (map_run_frames n (smoothingEffect map_far)) =
      Some (mkLocation 35.5 139.5) ∧
    map_frames (map_run_frames n (smoothingEffect map_far)) = [].
Proof.
  destruct (smoothing_reaches_the_location map_far (mkLocation 35.5 139.5))
    as (n & Hs & _ & Hf).
  - reflexivity.
  - intros frame Hin. vm_compute in Hin. by apply elem_of_nil in Hin.
  - by exists n.
Defined.

(** ** Heading: the absolute orientation takes over *)

Lemma orientation_absolute_stays (st : InteractiveMap)
    (events : list orientation_event) :
  map_absoluteSupported st = true →
  map_absoluteSupported (foldl orientation_listener st events) = true.
Proof.
  revert st. induction events as [|e events IH]; intros st Habs; [done|].
  cbn [foldl]. apply IH.
  destruct e as [[alpha|]|compass]; cbn; try done.
  unfold handleOrientation. by rewrite Habs.
Qed.

(** X15.  Once a [deviceorientationabsolute] event has arrived, the
    [deviceorientation] events are ignored: whatever events follow, the
    heading and the sensor flag are those that the absolute events alone
    give, and the sensor flag, once set, is never taken back. *)
Theorem absolute_orientation_takes_over (alpha : option Q)
    (st : InteractiveMap) (events : list orientation_event) :
  let is_absolute e :=
    match e with deviceorientationabsolute _ => true | _ => false end in
  let st1 := handleAbsoluteOrientation alpha st in
  foldl orientation_listener st1 events =
    foldl orientation_listener st1 (filter (λ e, is_absolute e) events) ∧
  (map_hasOrientationSensor st = true →
   map_hasOrientationSensor (foldl orientation_listener st events) = true).
Proof.
  intros is_absolute st1. split.
  - assert (map_absoluteSupported st1 = true) as Habs
      by (by destruct alpha).
    clearbody st1. revert st1 Habs.
    induction events as [|e events IH]; intros st1 Habs; [done|].
    destruct e as [alpha'|compass].
    + rewrite filter_cons_True by done. cbn [foldl]. apply IH.
      by destruct alpha'.
    + rewrite filter_cons_False by (by intros ?). cbn [foldl].
      cbn [orientation_listener]. unfold handleOrientation. rewrite Habs.
      by apply IH.
  - clear st1. revert st.
    induction events as [|e events IH]; intros st Hsensor; [done|].
    cbn [foldl]. apply IH.
    destruct e as [[alpha'|]|[compass|]]; cbn; try done.
    all: unfold handleOrientation; by destruct (map_absoluteSupported st).
Qed.

Lemma absolute_orientation_takes_over_witness :
  map_hasOrientationSensor
    (foldl orientation_listener
       (handleOrientation (Some 90%Q) map_far)
       [deviceorientationabsolute None; deviceorientation (Some 10%Q)]) =
    true.
Proof.
  apply (proj2 (absolute_orientation_takes_over None
                  (handleOrientation (Some 90%Q) map_far) _)).
  reflexivity.
Defined.

(** ** Long press *)

(** X16.  A long press inside the map element is reported at a position
    inside the bounds of the map: with a map element of positive size and
    bounds whose north-east corner is not south or west of the south-west
    corner, the position lies between the corners' latitudes and
    longitudes, the top left corner of the element gives the north-west
    corner of the bounds and the bottom right corner the south-east one.
    Without bounds nothing is reported. *)
Theorem long_press_stays_in_bounds (rect : DOMRect) (bounds : LatLngBounds)
    (clientX clientY : Q) :
  let ne := getNorthEast bounds in
  let sw := getSouthWest bounds in
  (0 < rect_width rect)%Q → (0 < rect_height rect)%Q →
  (location_lat sw <= location_lat ne)%Q →
  (location_lng sw <= location_lng ne)%Q →
  (rect_left rect <= clientX <= rect_left rect + rect_width rect)%Q →
  (rect_top rect <= clientY <= rect_top rect + rect_height rect)%Q →
  handleLongPressAt_position rect None clientX clientY = None ∧
  ∃ p, handleLongPressAt_position rect (Some bounds) clientX clientY = Some p ∧
       (location_lat sw <= location_lat p <= location_lat ne)%Q ∧
       (location_lng sw <= location_lng p <= location_lng ne)%Q ∧
       (clientX == rect_left rect → location_lng p == location_lng sw)%Q ∧
       (clientY == rect_top rect → location_lat p == location_lat ne)%Q ∧
       (clientX == rect_left rect + rect_width rect →
        location_lng p == location_lng ne)%Q ∧
       (clientY == rect_top rect + rect_height rect →
        location_lat p == location_lat sw)%Q.
Proof.
  intros ne sw Hw Hh Hlat Hlng [Hx0 Hx1] [Hy0 Hy1]. split; [done|].
  eexists. split; [reflexivity|]. cbn [location_lat location_lng].
  fold ne sw.
  destruct rect as [left top width height]. cbn in *.
  set (nlat := location_lat ne) in *. set (slat := location_lat sw) in *.
  set (nlng := location_lng ne) in *. set (slng := location_lng sw) in *.
  clearbody nlat slat nlng slng. clear ne sw.
  assert (0 <= (clientX - left) / width <= 1)%Q as [Hrx0 Hrx1].
  { split.
    - apply Qle_shift_div_l; [done|]. Lqa.lra.
    - apply Qle_shift_div_r; [done|]. Lqa.lra. }
  assert (0 <= (clientY - top) / height <= 1)%Q as [Hry0 Hry1].
  { split.
    - apply Qle_shift_div_l; [done|]. Lqa.lra.
    - apply Qle_shift_div_r; [done|]. Lqa.lra. }
  assert (∀ q, 0 < q → (q / q == 1))%Q as Hone.
  { intros q Hq. field. intros Hz. rewrite Hz in Hq. by apply Qlt_irrefl in Hq. }
  assert (∀ q, (0 / q == 0))%Q as Hzero by (intros q; by unfold Qdiv; ring).
  set (rx := ((clientX - left) / width)%Q) in *.
  set (ry := ((clientY - top) / height)%Q) in *.
  split_and!.
  - clearbody rx ry. Lqa.nra.
  - clearbody rx ry. Lqa.nra.
  - clearbody rx ry. Lqa.nra.
  - clearbody rx ry. Lqa.nra.
  - intros Heq. unfold rx. rewrite Heq.
    assert (left - left == 0)%Q as -> by ring. rewrite Hzero. ring.
  - intros Heq. unfold ry. rewrite Heq.
    assert (top - top == 0)%Q as -> by ring. rewrite Hzero. ring.
  - intros Heq. unfold rx. rewrite Heq.
    assert (left + width - left == width)%Q as -> by ring.
    rewrite Hone by done. ring.
  - intros Heq. unfold ry. rewrite Heq.
    assert (top + height - top == height)%Q as -> by ring.
    rewrite Hone by done. ring.
Qed.

Lemma long_press_stays_in_bounds_witness :
  ∃ p, handleLongPressAt_position sample_rect (Some sample_bounds) 100 200 =
         Some p ∧
       (35 <= location_lat p <= 36)%Q ∧ (139 <= location_lng p <= 140)%Q.
Proof.
  destruct (long_press_stays_in_bounds sample_rect sample_bounds 100 200)
    as (_ & p & Hp & Hlat & Hlng & _).
  - reflexivity.
  - reflexivity.
  - vm_compute; discriminate.
  - vm_compute; discriminate.
  - split; vm_compute; discriminate.
  - split; vm_compute; discriminate.
  - exists p. split; [exact Hp | split; [exact Hlat | exact Hlng]].
Defined.

(** ** Toasts *)

Lemma provider_step_expire (st st' : ToastProvider) :
  provider_step st st' → toasts_expire st → toasts_expire st'.
Proof.
  unfold toasts_expire.
  intros Hstep (Htoasts & Hdistinct & Hbelow).
  destruct Hstep as [id message type st | toast st Hin | d st | p st Hin Hdue].
  - cbn. split_and!.
    + apply Forall_app. split.
      * eapply Forall_impl; [exact Htoasts|].
        intros toast (p & Hp & Hvalue & Hdue). exists p.
        split_and!; [|done|done]. apply elem_of_app. by left.
      * apply Forall_singleton.
        exists (mkTimeout (next_handle (provider_timers st))
                  (clock (provider_timers st) + 3000) id).
        split_and!; [|done|cbn; lia].
        apply elem_of_app. right. by apply list_elem_of_singleton.
    + rewrite fmap_app. apply NoDup_app. split_and!; [done| |apply NoDup_singleton].
      intros h Hh Hnew. apply list_elem_of_singleton in Hnew. subst h.
      apply list_elem_of_fmap in Hh as (p & Heq & Hp).
      rewrite Forall_forall in Hbelow. specialize (Hbelow p Hp).
      cbn in Heq. lia.
    + apply Forall_app. split.
      * eapply Forall_impl; [exact Hbelow|]. intros p Hp. cbn in *. lia.
      * apply Forall_singleton. cbn. lia.
  - cbn. split_and!; [|done|done].
    rewrite Forall_forall in Htoasts |- *.
    intros toast' Hin'. apply list_elem_of_filter in Hin' as [_ Hin'].
    by apply Htoasts.
  - cbn. split_and!; [|done|done].
    eapply Forall_impl; [exact Htoasts|].
    intros toast (p & Hp & Hvalue & Hdue). exists p. split_and!; [done|done|lia].
  - cbn. split_and!.
    + rewrite Forall_forall in Htoasts |- *.
      intros toast Htoast. apply list_elem_of_filter in Htoast as [Hid Htoast].
      destruct (Htoasts toast Htoast) as (p' & Hp' & Hvalue & Hdue').
      exists p'. split_and!; [|done|done].
      apply list_elem_of_filter. split; [|done].
      intros Hhandle. apply Hid. rewrite <- Hvalue. f_equal.
      apply list_elem_of_lookup in Hp' as [i Hi]. apply list_elem_of_lookup in Hin as [j Hj].
      assert (i = j) as ->; [|congruence].
      eapply NoDup_lookup; [exact Hdistinct| |].
      * rewrite list_lookup_fmap, Hi. reflexivity.
      * rewrite list_lookup_fmap, Hj. cbn. by rewrite Hhandle.
    + apply (NoDup_fmap_2_strong _); [|by apply NoDup_filter, (NoDup_fmap_1 timeout_handle)].
      intros x y Hx Hy Heq. apply list_elem_of_filter in Hx as [_ Hx].
      apply list_elem_of_filter in Hy as [_ Hy].
      apply list_elem_of_lookup in Hx as [i Hi]. apply list_elem_of_lookup in Hy as [j Hj].
      assert (i = j) as ->; [|congruence].
      eapply NoDup_lookup; [exact Hdistinct| |].
      * rewrite list_lookup_fmap, Hi. reflexivity.
      * rewrite list_lookup_fmap, Hj. cbn. by rewrite Heq.
    + apply Forall_forall. intros p' Hp'. apply list_elem_of_filter in Hp' as [_ Hp'].
      rewrite Forall_forall in Hbelow. by apply Hbelow.
Qed.

Lemma provider_reachable_expire (st : ToastProvider) :
  provider_reachable st → toasts_expire st.
Proof.
  induction 1 as [handle now | st st' _ IH Hstep].
  - split_and!; cbn; [constructor | constructor | constructor].
  - by eapply provider_step_expire.
Qed.

(** X17.  No toast stays for good.  In every state the toast provider can
    reach, each toast on display has a pending timeout of its own that is
    due within 3000 ms, and when that timeout fires no toast with that id
    is left on display, while the toasts with another id stay. *)
Theorem every_toast_expires (st : ToastProvider) (toast : Toast) :
  provider_reachable st →
  toast ∈ provider_toasts st →
  ∃ p, p ∈ pending (provider_timers st) ∧
       (timeout_due p ≤ clock (provider_timers st) + 3000)%N ∧
       (toast_id toast ∉ toast_id <$> provider_toasts (provider_fire p st)) ∧
       ∀ other, other ∈ provider_toasts st →
                toast_id other ≠ toast_id toast →
                other ∈ provider_toasts (provider_fire p st).
Proof.
  intros Hreach Hin.
  destruct (provider_reachable_expire st Hreach) as (Htoasts & _ & _).
  rewrite Forall_forall in Htoasts.
  destruct (Htoasts toast Hin) as (p & Hp & Hvalue & Hdue).
  exists p. split_and!; [done | done | |].
  - cbn. rewrite Hvalue. intros Hstill.
    apply list_elem_of_fmap in Hstill as (t & Hid & Ht).
    apply list_elem_of_filter in Ht as [Hne _]. by apply Hne.
  - intros other Hother Hid. cbn. rewrite Hvalue.
    apply list_elem_of_filter. by split.
Qed.

Lemma every_toast_expires_witness :
  ∃ p, p ∈ pending (provider_timers provider_saved) ∧
       provider_toasts (provider_fire p provider_saved) = [].
Proof.
  destruct (every_toast_expires provider_saved
              (mkToast (JS.lit "k3j9x") (JS.lit "saved") toast_success))
    as (p & Hp & _ & Hgone & _).
  - eapply provider_reachable_step; [apply (provider_reachable_mounted 1 0)|].
    apply provider_show.
  - vm_compute. by left.
  - exists p. split; [exact Hp|].
    apply list_elem_of_singleton in Hp. subst p. reflexivity.
Defined.

(** ** Calendar *)

Section CalendarFacts.
Context (dateKey : JS.str → JS.str).

Lemma datesWithPlaces_foldl (dates : gmap JS.str (list Place))
    (places : list Place) (key : JS.str) :
  default []
    (foldl
       (λ dates place,
          <[dateKey (place_createdAt place) :=
              default [] (dates !! dateKey (place_createdAt place))
                ++ [place]]> dates)
       dates places !! key) =
  default [] (dates !! key) ++
    filter (λ p, dateKey (place_createdAt p) = key) places.
Proof.
  revert dates. induction places as [|place places IH]; intros dates.
  - cbn. by rewrite app_nil_r.
  - cbn [foldl]. rewrite IH.
    destruct (decide (dateKey (place_createdAt place) = key)) as [<- | Hne].
    + rewrite lookup_insert_eq, filter_cons_True by done. cbn.
      by rewrite <- app_assoc.
    + rewrite lookup_insert_ne, filter_cons_False by done. done.
Qed.

(** X18.  The calendar groups the places by the day they were created:
    under each day key [datesWithPlaces] holds exactly the places created
    on that day, in their stored order, and holds no entry for a day
    without places; so the places listed for a selected date are the
    places of that day, and none when no date is selected. *)
Theorem datesWithPlaces_groups_by_day (places : list Place) (key : JS.str) :
  let ofDay := filter (λ p, dateKey (place_createdAt p) = key) places in
  datesWithPlaces dateKey places !! key =
    (if decide (ofDay = []) then None else Some ofDay) ∧
  selectedDatePlaces dateKey (Some key) places = ofDay ∧
  selectedDatePlaces dateKey None places = [].
Proof.
  intros ofDay.
  assert (selectedDatePlaces dateKey (Some key) places = ofDay) as Hselected.
  { unfold selectedDatePlaces, datesWithPlaces.
    by rewrite (datesWithPlaces_foldl ∅ places key), lookup_empty. }
  split_and!; [|done|done].
  unfold selectedDatePlaces in Hselected.
  destruct (datesWithPlaces dateKey places !! key) as [l|] eqn:Hl.
  - cbn in Hselected. subst l. rewrite decide_False; [done|].
    (* a stored list is never empty *)
    intros Hempty. revert Hl. rewrite Hempty. clear.
    unfold datesWithPlaces.
    assert (∀ dates : gmap JS.str (list Place),
              (∀ k, dates !! k ≠ Some []) →
              foldl
                (λ dates place,
                   <[dateKey (place_createdAt place) :=
                       default [] (dates !! dateKey (place_createdAt place))
                         ++ [place]]> dates)
                dates places !! key ≠ Some []) as Hnonempty.
    { induction places as [|place places IH]; intros dates Hdates; [done|].
      cbn [foldl]. apply IH. intros k.
      destruct (decide (dateKey (place_createdAt place) = k)) as [<- | Hne].
      - rewrite lookup_insert_eq. intros [= Heq].
        by apply app_nil in Heq as [_ [=]].
      - by rewrite lookup_insert_ne. }
    apply Hnonempty. intros k. by rewrite lookup_empty.
  - cbn in Hselected. by rewrite decide_True.
Qed.

End CalendarFacts.

(** ** Home page *)

(** X19.  The home page lists, under the tab ['all'], every stored place
    once, and under any other tab exactly the places of that tab, each
    once; sorted by creation time the list runs from the newest to the
    oldest (['created-desc'], the default) or from the oldest to the
    newest (['created-asc']). *)
Theorem filteredPlaces_lists_the_tab (localeCompare : JS.str → JS.str → Z)
    (getTime : JS.str → Z) (places : list Place) (activeTabId : JS.str)
    (sortOption : SortOption) :
  let listed :=
    filteredPlaces localeCompare getTime places activeTabId sortOption in
  listed ≡ₚ
    (if decide (activeTabId = JS.lit "all") then places
     else filter (λ p, place_tabId p = activeTabId) places) ∧
  match sortOption with
  | name_asc => True
  | created_desc =>
      StronglySorted
        (λ a b, getTime (place_createdAt b) ≤ getTime (place_createdAt a))%Z
        listed
  | created_asc =>
      StronglySorted
        (λ a b, getTime (place_createdAt a) ≤ getTime (place_createdAt b))%Z
        listed
  end.
Proof.
  intros listed. unfold listed, filteredPlaces. split.
  - rewrite sort_Permutation.
    destruct (decide (activeTabId = JS.lit "all")) as [-> | Hne].
    + by rewrite decide_False by (by intros H).
    + by rewrite decide_True.
  - destruct sortOption; [done | |].
    + apply sort_StronglySorted.
      * intros a b c Hab Hbc. lia.
      * intros a b Hgt. apply bool_decide_eq_false in Hgt.
        cbn [compare_places] in Hgt. lia.
      * intros a b Hgt. apply bool_decide_eq_true in Hgt.
        cbn [compare_places] in Hgt. lia.
    + apply sort_StronglySorted.
      * intros a b c Hab Hbc. lia.
      * intros a b Hgt. apply bool_decide_eq_false in Hgt.
        cbn [compare_places] in Hgt. lia.
      * intros a b Hgt. apply bool_decide_eq_true in Hgt.
        cbn [compare_places] in Hgt. lia.
Qed.

(** ** Trimmed text *)

Lemma trim_start_idemp (s : JS.str) :
  JS.trim_start (JS.trim_start s) = JS.trim_start s.
Proof.
  induction s as [|c s IH]; [done|]. cbn.
  destruct (JS.is_white_space c) eqn:Hc; [done|]. cbn. by rewrite Hc.
Qed.

Lemma trim_start_head (s : JS.str) (c : N) (r : JS.str) :
  JS.trim_start s = c :: r → JS.is_white_space c = false.
Proof.
  induction s as [|c' s IH]; [done|]. cbn.
  destruct (JS.is_white_space c') eqn:Hc; [done|]. by intros [= <- _].
Qed.

Lemma trim_start_suffix (s : JS.str) : ∃ ws, s = ws ++ JS.trim_start s.
Proof.
  induction s as [|c s [ws IH]]; [by exists []|]. cbn.
  destruct (JS.is_white_space c); [|by exists []].
  exists (c :: ws). cbn. by rewrite <- IH.
Qed.

Lemma trim_end_prefix (s : JS.str) : ∃ ws, s = JS.trim_end s ++ ws.
Proof.
  unfold JS.trim_end. destruct (trim_start_suffix (reverse s)) as [ws Hws].
  exists (reverse ws). rewrite <- reverse_app, <- Hws.
  by rewrite reverse_involutive.
Qed.

Lemma trim_idemp (s : JS.str) : JS.trim (JS.trim s) = JS.trim s.
Proof.
  unfold JS.trim. set (a := JS.trim_start s).
  assert (JS.trim_start (JS.trim_end a) = JS.trim_end a) as ->.
  { destruct (trim_end_prefix a) as [ws Hws].
    destruct (JS.trim_end a) as [|c r] eqn:Hb; [done|].
    cbn. rewrite (trim_start_head s c (r ++ ws)); [done|].
    fold a. by rewrite Hws. }
  unfold JS.trim_end at 1. unfold JS.trim_end at 1.
  rewrite reverse_involutive, trim_start_idemp. done.
Qed.

(** ** Postal codes *)

Lemma match_digits_Some (n : nat) (s digits rest : JS.str) :
  match_digits n s = Some (digits, rest) →
  s = digits ++ rest ∧ length digits = n ∧ forallb is_digit digits = true.
Proof.
  unfold match_digits.
  destruct (bool_decide (length (take n s) = n)) eqn:Hlen; [|done].
  destruct (forallb is_digit (take n s)) eqn:Hdigits; [|done].
  intros [= <- <-]. apply bool_decide_eq_true in Hlen.
  by rewrite take_drop.
Qed.

Lemma match_postal_digits_Some (s group rest : JS.str) :
  match_postal_digits s = Some (group, rest) →
  s = group ++ rest ∧ ∃ first last, postal_digits group first last.
Proof.
  unfold match_postal_digits.
  destruct (match_digits 3 s) as [[first s1]|] eqn:Hfirst; [|done].
  apply match_digits_Some in Hfirst as (-> & Hlen3 & Hd3). cbn.
  assert (∀ r, ('(last, s3) ← match_digits 4 s1; Some (first ++ last, s3))
               = Some r →
               first ++ s1 = r.1 ++ r.2 ∧
               ∃ first' last, postal_digits r.1 first' last) as Hplain.
  { intros r. destruct (match_digits 4 s1) as [[last s3]|] eqn:Hlast; [|done].
    apply match_digits_Some in Hlast as (-> & Hlen4 & Hd4). cbn.
    intros [= <-]. cbn. split; [by rewrite <- app_assoc|].
    exists first, last. split_and!; try done. by left. }
  destruct s1 as [|c s2].
  { intros Hr. by apply (Hplain (group, rest)) in Hr. }
  destruct (bool_decide (c = 45%N)) eqn:Hc.
  - apply bool_decide_eq_true in Hc as ->.
    destruct (match_digits 4 s2) as [[last s3]|] eqn:Hlast.
    + apply match_digits_Some in Hlast as (-> & Hlen4 & Hd4). cbn.
      intros [= <- <-]. split; [by rewrite <- !app_assoc|].
      exists first, last. split_and!; try done. by right.
    + cbn. intros Hr. by apply (Hplain (group, rest)) in Hr.
  - intros Hr. by apply (Hplain (group, rest)) in Hr.
Qed.

Lemma match_postal_Some (s group rest : JS.str) :
  match_postal s = Some (group, rest) →
  (∃ before, s = before ++ group ++ rest) ∧
  ∃ first last, postal_digits group first last.
Proof.
  unfold match_postal.
  assert (∀ s', match_postal_digits (JS.trim_start s') = Some (group, rest) →
                (∃ before, s' = before ++ group ++ rest) ∧
                ∃ first last, postal_digits group first last) as Hrest.
  { intros s' Hm. apply match_postal_digits_Some in Hm as [Heq Hd].
    split; [|done]. destruct (trim_start_suffix s') as [ws Hws].
    exists ws. by rewrite <- Heq. }
  destruct s as [|c s1]; [apply Hrest|].
  destruct (bool_decide (c = 0x3012%N)); [|apply Hrest].
  destruct (match_postal_digits (JS.trim_start s1)) as [r|] eqn:Hm;
    [|apply Hrest].
  intros [= ->]. apply Hrest in Hm as [[before ->] Hd].
  split; [|done]. by exists (c :: before).
Qed.

Lemma digits_no_hyphen (digits : JS.str) :
  forallb is_digit digits = true → 45%N ∉ digits.
Proof.
  intros Hd Hin. rewrite forallb_forall in Hd.
  apply list_elem_of_In in Hin. by apply Hd in Hin.
Qed.

Lemma trim_start_spaces (s : JS.str) :
  ∃ ws, s = ws ++ JS.trim_start s ∧
        Forall (λ c, JS.is_white_space c = true) ws.
Proof.
  induction s as [|c s (ws & IH & Hws)]; [by exists []|]. cbn.
  destruct (JS.is_white_space c) eqn:Hc; [|by exists []].
  exists (c :: ws). split; [cbn; by rewrite <- IH | by constructor].
Qed.

Lemma digit_is_no_mark (c : N) :
  is_digit c = true →
  JS.is_white_space c = false ∧ c ≠ 0x3012%N ∧ c ≠ 45%N.
Proof.
  unfold is_digit. intros Hd. apply andb_true_iff in Hd as [Hlow Hhigh].
  apply N.leb_le in Hlow, Hhigh.
  split_and!; [|lia|lia].
  apply bool_decide_eq_false. intros Hin.
  repeat (apply elem_of_cons in Hin as [-> | Hin]; [lia|]).
  by apply elem_of_nil in Hin.
Qed.

Lemma match_digits_complete (n : nat) (digits rest : JS.str) :
  length digits = n → forallb is_digit digits = true →
  match_digits n (digits ++ rest) = Some (digits, rest).
Proof.
  intros Hlen Hd. unfold match_digits.
  rewrite take_app_length', drop_app_length' by done.
  by rewrite bool_decide_eq_true_2, Hd.
Qed.

Lemma match_postal_digits_complete (group first last after : JS.str) :
  postal_digits group first last →
  match_postal_digits (group ++ after) = Some (group, after).
Proof.
  intros (Hl3 & Hl4 & Hd3 & Hd4 & Hgroup). unfold match_postal_digits.
  destruct Hgroup as [-> | ->]; rewrite <- !app_assoc.
  - rewrite (match_digits_complete 3) by done. cbn.
    destruct last as [|c last]; [done|]. cbn [app].
    assert (is_digit c = true) as Hc
      by (cbn in Hd4; by apply andb_true_iff in Hd4 as [? _]).
    rewrite bool_decide_eq_false_2 by (by apply digit_is_no_mark).
    change (c :: last ++ after) with ((c :: last) ++ after).
    rewrite (match_digits_complete 4) by done. done.
  - rewrite (match_digits_complete 3) by done. cbn.
    rewrite bool_decide_eq_true_2 by done.
    rewrite (match_digits_complete 4) by done. done.
Qed.

(** A group starts with a digit. *)
Lemma postal_digits_head (group first last : JS.str) :
  postal_digits group first last →
  ∃ c rest, group = c :: rest ∧ is_digit c = true.
Proof.
  intros (Hl3 & _ & Hd3 & _ & Hgroup).
  destruct first as [|c first]; [done|].
  assert (is_digit c = true) as Hc
    by (cbn in Hd3; by apply andb_true_iff in Hd3 as [? _]).
  destruct Hgroup as [-> | ->]; eexists c, _; by split.
Qed.

Lemma match_postal_complete (group first last after : JS.str) :
  postal_digits group first last →
  match_postal (group ++ after) = Some (group, after).
Proof.
  intros Hgroup.
  destruct (postal_digits_head _ _ _ Hgroup) as (c & rest & Heq & Hc).
  apply digit_is_no_mark in Hc as (Hspace & Hmark & _).
  pose proof (match_postal_digits_complete group first last after Hgroup)
    as Hm.
  unfold match_postal. rewrite Heq in Hm |- *. cbn [app] in Hm |- *.
  rewrite bool_decide_eq_false_2 by done.
  cbn [JS.trim_start]. by rewrite Hspace, Hm.
Qed.

(** What a match skips before the group is no digit. *)
Lemma match_postal_mark (s group rest : JS.str) :
  match_postal s = Some (group, rest) →
  ∃ mark, s = mark ++ group ++ rest ∧
          Forall (λ c, is_digit c = false) mark.
Proof.
  unfold match_postal.
  assert (∀ s', match_postal_digits (JS.trim_start s') = Some (group, rest) →
                ∃ mark, s' = mark ++ group ++ rest ∧
                        Forall (λ c, is_digit c = false) mark) as Hrest.
  { intros s' Hm. apply match_postal_digits_Some in Hm as [Heq _].
    destruct (trim_start_spaces s') as (ws & Hws & Hspaces).
    exists ws. split; [by rewrite <- Heq|].
    eapply Forall_impl; [exact Hspaces|]. intros c Hc.
    destruct (is_digit c) eqn:Hd; [|done].
    apply digit_is_no_mark in Hd as [Hd _]. congruence. }
  destruct s as [|c s1]; [apply Hrest|].
  destruct (bool_decide (c = 0x3012%N)) eqn:Hc; [|apply Hrest].
  destruct (match_postal_digits (JS.trim_start s1)) as [r|] eqn:Hm;
    [|apply Hrest].
  intros [= ->]. apply Hrest in Hm as (mark & -> & Hmark).
  exists (c :: mark). split; [done|]. constructor; [|done].
  apply bool_decide_eq_true in Hc as ->. reflexivity.
Qed.

Lemma search_postal_None (s : JS.str) :
  search_postal s = None →
  ∀ before group first last after,
    postal_digits group first last → s ≠ before ++ group ++ after.
Proof.
  induction s as [|c s IH]; cbn [search_postal];
    intros Hnone before group first last after Hgroup Heq.
  - destruct (postal_digits_head _ _ _ Hgroup) as (d & rest & -> & _).
    by destruct before.
  - destruct (match_postal (c :: s)) as [[g a]|] eqn:Hm; [done|].
    destruct before as [|c' before].
    + cbn [app] in Heq. rewrite Heq in Hm.
      by rewrite (match_postal_complete _ first last) in Hm.
    + injection Heq as <- Heq.
      destruct (search_postal s) as [[[b g] a]|]; [done|].
      by eapply IH.
Qed.

Lemma search_postal_first (s before group after : JS.str) :
  search_postal s = Some (before, group, after) →
  ∃ mark,
    s = (before ++ mark) ++ group ++ after ∧
    (∃ first last, postal_digits group first last) ∧
    ∀ before' group' first' last' after',
      postal_digits group' first' last' →
      s = before' ++ group' ++ after' →
      length (before ++ mark) ≤ length before'.
Proof.
  revert before. induction s as [|c s IH]; intros before; cbn [search_postal].
  - destruct (match_postal []) as [[g a]|] eqn:Hm; [|done].
    intros [= <- <- <-].
    pose proof (match_postal_Some _ _ _ Hm) as [_ Hdigits].
    apply match_postal_mark in Hm as (mark & Hmark & _).
    exists mark. split_and!; [done | done |].
    intros before' group' first' last' after' Hgroup Heq.
    destruct (postal_digits_head _ _ _ Hgroup) as (d & rest & -> & _).
    by destruct before'.
  - destruct (match_postal (c :: s)) as [[g a]|] eqn:Hm.
    + intros [= <- <- <-].
      pose proof (match_postal_Some _ _ _ Hm) as [_ Hdigits].
      apply match_postal_mark in Hm as (mark & Hmark & Hnodigit).
      exists mark. split_and!; [done | done |].
      intros before' group' first' last' after' Hgroup Heq.
      destruct (postal_digits_head _ _ _ Hgroup) as (d & rest & -> & Hd).
      cbn [app]. destruct (Nat.le_gt_cases (length mark) (length before'))
        as [|Hlt]; [done|].
      exfalso.
      assert ((c :: s) !! length before' = Some d) as Hlookup.
      { rewrite Heq. cbn [app]. by rewrite list_lookup_middle. }
      rewrite Hmark, lookup_app_l in Hlookup by done.
      rewrite Forall_forall in Hnodigit.
      apply list_elem_of_lookup_2, Hnodigit in Hlookup. congruence.
    + destruct (search_postal s) as [[[b g] a]|] eqn:Hs; [|done]. cbn.
      intros [= <- <- <-].
      destruct (IH b eq_refl) as (mark & Hmark & Hdigits & Hfirst).
      exists mark. split_and!; [cbn; by rewrite <- Hmark | done |].
      intros before' group' first' last' after' Hgroup Heq.
      destruct before' as [|c' before'].
      * cbn [app] in Heq. rewrite Heq in Hm.
        by rewrite (match_postal_complete _ first' last') in Hm.
      * injection Heq as <- Heq. cbn [length app].
        apply le_n_S. by eapply Hfirst.
Qed.

(** X20.  [parseAddress] reports a postal code in one form only: when the
    address holds seven digits in a row, or three digits, a hyphen and four
    digits, the postal code is the first such group written as three
    digits, a hyphen and four digits; when the address holds no such
    group, there is no postal code.  The address it returns has no white
    space at either end. *)
Theorem parseAddress_postal_code_form (fullAddress : JS.str) :
  let parsed := parseAddress fullAddress in
  JS.trim (parsed_address parsed) = parsed_address parsed ∧
  match parsed_postalCode parsed with
  | Some postalCode =>
      ∃ first last before group after,
        postal_digits group first last ∧
        fullAddress = before ++ group ++ after ∧
        postalCode = first ++ [45%N] ++ last ∧
        ∀ before' group' first' last' after',
          postal_digits group' first' last' →
          fullAddress = before' ++ group' ++ after' →
          length before ≤ length before'
  | None =>
      ∀ before group first last after,
        postal_digits group first last →
        fullAddress ≠ before ++ group ++ after
  end.
Proof.
  intros parsed. split; [apply trim_idemp|].
  unfold parsed, parseAddress. cbn [parsed_postalCode].
  destruct (search_postal fullAddress) as [[[before group] after]|] eqn:Hm;
    [|by apply search_postal_None].
  apply search_postal_first in Hm
    as (mark & Heq & (first & last & Hdigits) & Hfirst).
  exists first, last, (before ++ mark), group, after.
  split_and!; [done | done | | done].
  destruct Hdigits as (Hl3 & Hl4 & Hd3 & Hd4 & [-> | ->]); unfold hyphenate.
  - rewrite bool_decide_eq_false_2.
    + by rewrite take_app_length', drop_app_length' by done.
    + intros Hin. apply elem_of_app in Hin as [Hin | Hin];
        [by apply (digits_no_hyphen first) | by apply (digits_no_hyphen last)].
  - rewrite bool_decide_eq_true_2; [done|].
    apply elem_of_app. right. by left.
Qed.

(** ** Tabs page *)

Lemma getCustomTabs_eq (w : world) :
  getCustomTabs w =
    (filter (λ t, tab_isCustom t)
       (elements (fst (getTabs w)) (snd (getTabs w))), snd (getTabs w)).
Proof. unfold getCustomTabs. by destruct (getTabs w). Qed.

(** X21.  Adding a tab on the tabs page, while the page shows the custom
    tabs of the store: a blank name, or five custom tabs, gives one error
    toast and changes nothing; otherwise the new tab is stored under the
    trimmed name, which is not empty and has no white space at either end,
    the success toast is shown, the name field is emptied and the page
    again shows the custom tabs of the store.  The toast for a failed
    addition is never shown. *)
Theorem handleAddTab_stores_trimmed_name (uuid : JS.str) (page : TabsPage)
    (w : world) :
  tabsPage_in_sync page w →
  let name := JS.trim (tabsPage_newTabName page) in
  let '(page', w', shown) := handleAddTab uuid page w in
  if bool_decide (name = []) then
    shown = [(msg_enter_name, Some toast_error)] ∧ page' = page ∧ w' = w
  else if bool_decide (5 ≤ length (tabsPage_customTabs page)) then
    shown = [(msg_limit, Some toast_error)] ∧ page' = page ∧ w' = w
  else
    shown = [(msg_added, None)] ∧
    (∃ newTab, fst (addCustomTab uuid name w) = Some newTab ∧
               tab_name newTab = name ∧ tab_id newTab = uuid ∧
               newTab ∈ tabsPage_customTabs page' ∧
               newTab ∈ elements (tabsPage_tabs page') w') ∧
    name ≠ [] ∧ JS.trim name = name ∧
    w' = snd (addCustomTab uuid name w) ∧
    kokomemo_tabs (storage w') =
      Some (Encoded (elements (tabsPage_tabs page') w')) ∧
    tabsPage_newTabName page' = [] ∧
    tabsPage_in_sync page' w'.
Proof.
  intros Hsync name. unfold handleAddTab. fold name.
  assert (JS.trim name = name) as Htrim by apply trim_idemp.
  clearbody name.
  destruct (decide (name = [])) as [-> | Hname]; [done|].
  rewrite (bool_decide_eq_false_2 (name = [])) by done.
  assert (JS.truthy name = true) as -> by (by destruct name).
  cbn [negb].
  case_bool_decide as Hlimit; [done|].
  destruct (getTabs w) as [tabs w1] eqn:Hget.
  pose proof (addCustomTab_stored uuid name w w1 tabs Hget) as [Hstored Hnext].
  unfold tabsPage_in_sync in Hsync.
  rewrite getCustomTabs_eq, Hget in Hsync. cbn [fst snd] in Hsync.
  rewrite Hsync in Hlimit.
  rewrite bool_decide_eq_false_2 in Hstored, Hnext by done.
  assert (addCustomTab uuid name w =
            (Some (mkTab uuid name true
                     (Math_max (tab_order <$> elements tabs w1) + 1)),
             snd (addCustomTab uuid name w))) as Hadd.
  { unfold addCustomTab. rewrite Hget.
    rewrite bool_decide_eq_false_2 by done.
    by destruct (push tabs _ w1). }
  rewrite Hadd. unfold loadTabs. rewrite Hnext, getCustomTabs_eq, Hnext.
  cbn [fst snd elements tabsPage_tabs tabsPage_customTabs tabsPage_newTabName].
  split_and!; try done.
  - eexists. split_and!; [reflexivity | done | done | |].
    + apply list_elem_of_filter. split; [done|].
      apply elem_of_app. right. by left.
    + apply elem_of_app. right. by left.
  - unfold tabsPage_in_sync. by rewrite getCustomTabs_eq, Hnext.
Qed.

Lemma handleAddTab_stores_trimmed_name_witness :
  let page := mkTabsPage (FreshArray []) [] (JS.lit "  gym ") in
  tabsPage_in_sync page first_launch ∧
  (handleAddTab (JS.lit "uuid-1") page first_launch).2 = [(msg_added, None)].
Proof.
  assert (tabsPage_in_sync (mkTabsPage (FreshArray []) [] (JS.lit "  gym ")) first_launch)
    as Hsync by reflexivity.
  split; [exact Hsync|].
  pose proof (handleAddTab_stores_trimmed_name (JS.lit "uuid-1")
                (mkTabsPage (FreshArray []) [] (JS.lit "  gym ")) first_launch Hsync)
    as Hadd.
  destruct (handleAddTab _ _ _) as [[page' w'] shown].
  cbv zeta in Hadd.
  rewrite bool_decide_eq_false_2 in Hadd by (by vm_compute).
  rewrite bool_decide_eq_false_2 in Hadd by (cbn; lia).
  by destruct Hadd as [-> _].
Defined.

(** ** Selecting a suggestion *)

